(** * Conway's Game of Life on a 70 x 30 torus: [main.c]

    A shallow embedding of the grid store ([cellindex], [getcell],
    [setcell], [init], [copygrid], [setup]), of the generation engine
    ([count_alive_neighbors], [update]) and of the output and the driver
    ([clear], [draw], [printgrid], [main]) of [main.c], followed by the
    properties the specification states about them and by further
    properties of the code.

    C [int] values are integers of [Z] with the 32-bit two's complement
    wrap-around written out; [%] is C99's truncating remainder ([Z.rem]).
    An [int *grid] is the list of the cells it points to; an access
    outside the array has no defined result and is [None]. *)

From Stdlib Require Import ZArith Lia Strings.Byte.
From Stdlib Require Strings.String DecimalString.
From stdpp Require Import base tactics option list list_numbers.

Local Open Scope Z_scope.

(** ** C [int] arithmetic *)

Module CInt.

Definition min_signed : Z := -2147483648.
Definition max_signed : Z := 2147483647.
Definition modulus : Z := 4294967296.

(** The representative of [z] in [[min_signed, max_signed]]. *)
Definition wrap (z : Z) : Z :=
  (z - min_signed) mod modulus + min_signed.

Definition add (a b : Z) : Z := wrap (a + b).
Definition sub (a b : Z) : Z := wrap (a - b).
Definition mul (a b : Z) : Z := wrap (a * b).

(** [a % b]: the quotient is truncated toward zero, so the result has
    the sign of [a]. *)
Definition rem (a b : Z) : Z := Z.rem a b.

Definition in_range (z : Z) : Prop := min_signed <= z <= max_signed.

End CInt.

(** ** Arrays of [int] *)

Definition load (a : list Z) (i : Z) : option Z :=
  if decide (0 <= i) then a !! Z.to_nat i else None.

Definition store (a : list Z) (i : Z) (v : Z) : option (list Z) :=
  if decide (0 <= i < Z.of_nat (length a))
  then Some (<[Z.to_nat i := v]> a)
  else None.

(** A [for] loop whose variable runs over [l] and whose body may fail. *)
Fixpoint for_each {A S : Type} (body : A -> S -> option S)
    (l : list A) (s : S) : option S :=
  match l with
  | [] => Some s
  | a :: l' =>
      match body a s with
      | Some s' => for_each body l' s'
      | None => None
      end
  end.

(** ** Grid store *)

Definition COLS : Z := 70.
Definition ROWS : Z := 30.

(** Number of cells of a grid, as a list length. *)
Definition CELLS : nat := Z.to_nat (COLS * ROWS).

Definition cellindex (x y : Z) : Z :=
  let x := CInt.rem (CInt.add x COLS) COLS in
  let y := CInt.rem (CInt.add y ROWS) ROWS in
  CInt.add (CInt.mul y COLS) x.

Definition setcell (grid : list Z) (x y state : Z) : option (list Z) :=
  store grid (cellindex x y) state.

Definition getcell (grid : list Z) (x y : Z) : option Z :=
  load grid (cellindex x y).

Definition init (grid : list Z) : option (list Z) :=
  for_each (fun i g => store g i 0) (seqZ 0 (COLS * ROWS)) grid.

Definition copygrid (source dest : list Z) : option (list Z) :=
  for_each (fun i d => v ← load source i; store d i v)
           (seqZ 0 (ROWS * COLS)) dest.

(** ** Generation engine *)

Definition count_alive_neighbors (grid : list Z) (x y : Z) : option Z :=
  nw ← getcell grid (CInt.sub x 1) (CInt.sub y 1);
  n ← getcell grid x (CInt.sub y 1);
  ne ← getcell grid (CInt.add x 1) (CInt.sub y 1);
  w ← getcell grid (CInt.sub x 1) y;
  e ← getcell grid (CInt.add x 1) y;
  sw ← getcell grid (CInt.sub x 1) (CInt.add y 1);
  s ← getcell grid x (CInt.add y 1);
  se ← getcell grid (CInt.add x 1) (CInt.add y 1);
  Some (CInt.add (CInt.add (CInt.add (CInt.add (CInt.add (CInt.add
         (CInt.add nw n) ne) w) e) sw) s) se).

(** The body of the two nested loops of [update], at cell [(x, y)]:
    reads [grid], writes [gridcpy]. *)
Definition update_cell (grid : list Z) (y x : Z) (gridcpy : list Z)
    : option (list Z) :=
  alive_neighbors ← count_alive_neighbors grid x y;
  c ← getcell grid x y;
  if decide (c ≠ 0) then
    if decide (alive_neighbors < 2 ∨ alive_neighbors > 3)
    then setcell gridcpy x y 0
    else Some gridcpy
  else
    if decide (alive_neighbors = 3)
    then setcell gridcpy x y 1
    else Some gridcpy.

(** [update], with the initial content [scratch] of the local array
    [gridcpy] made explicit. *)
Definition update_on (scratch grid : list Z) : option (list Z) :=
  gridcpy ← copygrid grid scratch;
  gridcpy ← for_each
    (fun y cpy => for_each (update_cell grid y) (seqZ 0 COLS) cpy)
    (seqZ 0 ROWS) gridcpy;
  copygrid gridcpy grid.

(** The local [gridcpy] is not initialised in C; [copygrid] overwrites
    all of it before any read ([update_on_next] below), so any array
    of [CELLS] cells stands for it. *)
Definition update (grid : list Z) : option (list Z) :=
  update_on (replicate CELLS 0) grid.

(** The coordinates [setup] assigns, in program order. *)
Definition setup_cells : list (Z * Z) :=
  [(20, 15); (21, 13); (21, 14); (21, 16); (21, 17); (24, 12); (24, 13);
   (24, 14); (24, 16); (24, 17); (24, 18); (25, 12); (25, 13); (25, 17);
   (25, 18); (26, 8); (26, 9); (26, 10); (26, 20); (26, 21); (26, 22);
   (28, 8); (28, 10); (28, 20); (28, 22); (29, 10); (29, 11); (29, 19);
   (29, 20); (30, 10); (30, 20); (31, 9); (31, 10); (31, 20); (31, 21);
   (32, 10); (32, 20); (33, 10); (33, 13); (33, 17); (33, 20); (34, 10);
   (34, 13); (34, 17); (34, 20); (35, 8); (35, 10); (35, 11); (35, 19);
   (35, 20); (35, 22); (36, 7); (36, 9); (36, 21); (36, 23); (38, 9);
   (38, 21); (39, 9); (39, 21); (40, 9); (40, 21); (41, 8); (41, 9);
   (41, 21); (41, 22); (42, 8); (42, 9); (42, 21); (42, 22); (43, 9);
   (43, 11); (43, 12); (43, 13); (43, 17); (43, 18); (43, 19); (43, 21);
   (44, 11); (44, 12); (44, 13); (44, 17); (44, 18); (44, 19); (45, 11);
   (45, 12); (45, 18); (45, 19); (46, 10); (46, 11); (46, 19); (46, 20);
   (47, 12); (47, 18); (48, 9); (48, 21); (49, 9); (49, 10); (49, 20);
   (49, 21); (51, 8); (51, 10); (51, 11); (51, 19); (51, 20); (51, 22);
   (52, 7); (52, 10); (52, 11); (52, 19); (52, 20); (52, 23); (53, 6);
   (53, 10); (53, 11); (53, 19); (53, 20); (53, 24); (54, 7); (54, 23)].

Definition setup (grid : list Z) : option (list Z) :=
  for_each (fun c g => store g (cellindex c.1 c.2) 1) setup_cells grid.

(** [n] iterations of the loop of [main] (the calls of [draw] only read
    the grid). *)
Fixpoint generations (n : nat) (grid : list Z) : option (list Z) :=
  match n with
  | O => Some grid
  | S n' =>
      match update grid with
      | Some grid' => generations n' grid'
      | None => None
      end
  end.

(** [main] up to its [n]-th generation, from the content [stack] of its
    local array. *)
Definition main_run (n : nat) (stack : list Z) : option (list Z) :=
  g ← init stack; g ← setup g; generations n g.

(** ** Specification-side definitions

    These follow the words of the specification, to be compared with the
    definitions above. *)

Definition spec_index (x y : Z) : Z :=
  (((y mod ROWS) + ROWS) mod ROWS) * COLS + ((x mod COLS) + COLS) mod COLS.

Definition spec_get (grid : list Z) (x y : Z) : Z :=
  default 0 (grid !! Z.to_nat (spec_index x y)).

(** The eight neighbour offsets: NW, N, NE, W, E, SW, S, SE. *)
Definition neighbor_offsets : list (Z * Z) :=
  [(-1, -1); (0, -1); (1, -1); (-1, 0); (1, 0); (-1, 1); (0, 1); (1, 1)].

Definition spec_count (grid : list Z) (x y : Z) : Z :=
  foldr Z.add 0 ((fun d => spec_get grid (x + d.1) (y + d.2)) <$> neighbor_offsets).

(** The rule table of the generation engine. *)
Definition life_rule (state neighbors : Z) : Z :=
  if decide (state = 1) then
    if decide (neighbors < 2) then 0
    else if decide (neighbors = 2 ∨ neighbors = 3) then 1
    else 0
  else
    if decide (neighbors = 3) then 1 else 0.

Definition advance_spec (grid : list Z) : list Z :=
  (fun i => life_rule (spec_get grid (i mod COLS) (i / COLS))
                      (spec_count grid (i mod COLS) (i / COLS)))
    <$> seqZ 0 (COLS * ROWS).

(** ** Predicates on grids *)

Definition wf (grid : list Z) : Prop := length grid = CELLS.

Definition binary (grid : list Z) : Prop :=
  Forall (fun c => c = 0 ∨ c = 1) grid.

(** The value [update] leaves in a cell holding [c] with [n] live
    neighbours: what it writes, or [c] where it writes nothing. *)
Definition cell_after (c n : Z) : Z :=
  if decide (c ≠ 0) then
    if decide (n < 2 ∨ n > 3) then 0 else c
  else
    if decide (n = 3) then 1 else c.

(** The next value of cell [(x, y)], read off [grid]. *)
Definition next_cell (grid : list Z) (x y : Z) : Z :=
  default 0 (c ← getcell grid x y;
             n ← count_alive_neighbors grid x y;
             Some (cell_after c n)).

Definition next_grid (grid : list Z) : list Z :=
  (fun i => next_cell grid (i mod COLS) (i / COLS)) <$> seqZ 0 (COLS * ROWS).

(** [cellindex] wraps as intended from one period below the grid up to
    where [x + COLS] and [y + ROWS] still fit an [int]. *)
Definition wraps (x y : Z) : Prop :=
  - COLS <= x <= CInt.max_signed - COLS ∧ - ROWS <= y <= CInt.max_signed - ROWS.

(** Coordinates whose eight neighbours all lie where [cellindex] wraps. *)
Definition interior (x y : Z) : Prop :=
  - COLS < x < CInt.max_signed - COLS ∧ - ROWS < y < CInt.max_signed - ROWS.

(** While the loops of [update] run, every cell of [gridcpy] holds either
    its value in [grid] or its next value, and the cells in [visited] hold
    their next value. *)
Definition upd_inv (g : list Z) (visited : nat → Prop) (cpy : list Z) : Prop :=
  length cpy = CELLS ∧
  ∀ k, (k < CELLS)%nat →
    (cpy !! k = g !! k ∨ cpy !! k = next_grid g !! k) ∧
    (visited k → cpy !! k = next_grid g !! k).

(** ** Patterns on the torus *)

Definition alive (b : bool) : Z := if b then 1 else 0.

(** The grid whose live cells are those [p] selects. *)
Definition pattern_of (p : Z → Z → bool) : list Z :=
  (fun i => alive (p (i mod COLS) (i / COLS))) <$> seqZ 0 (COLS * ROWS).

Definition live_around (p : Z → Z → bool) (x y : Z) : Z :=
  foldr Z.add 0
    ((fun d => alive (p ((x + d.1) mod COLS) ((y + d.2) mod ROWS)))
       <$> neighbor_offsets).

(** One generation of the rule table on a pattern. *)
Definition evolve (p : Z → Z → bool) (x y : Z) : bool :=
  let n := live_around p x y in
  if p x y then (n =? 2) || (n =? 3) else (n =? 3).

(** The pattern [q] moved so that its origin is the cell [(ox, oy)]. *)
Definition shift (q : Z → Z → bool) (ox oy : Z) (x y : Z) : bool :=
  q ((x - ox) mod COLS) ((y - oy) mod ROWS).

Definition agree_on_torus (p q : Z → Z → bool) : bool :=
  forallb (fun u => forallb (fun v => bool_decide (p u v = q u v)) (seqZ 0 ROWS))
          (seqZ 0 COLS).

Definition dead_grid : list Z := replicate CELLS 0.

(** A 2 x 2 square with its top left cell at the origin. *)
Definition block_shape (u v : Z) : bool := (u <? 2) && (v <? 2).

Definition block (ox oy : Z) : list Z := pattern_of (shift block_shape ox oy).

(** Three cells in a row, centred at the origin. *)
Inductive orientation : Type := Horizontal | Vertical.

Definition blinker_shape (o : orientation) (u v : Z) : bool :=
  match o with
  | Horizontal => ((u + 1) mod COLS <? 3) && (v =? 0)
  | Vertical => (u =? 0) && ((v + 1) mod ROWS <? 3)
  end.

Definition turn (o : orientation) : orientation :=
  match o with Horizontal => Vertical | Vertical => Horizontal end.

Definition blinker (o : orientation) (cx cy : Z) : list Z :=
  pattern_of (shift (blinker_shape o) cx cy).

(** ** Terminal output

    [printf] appends bytes to the standard output, which the functions
    below pass along. *)

(** [printf("\e[1;1H\e[2J\n")]: cursor home, erase display, newline. *)
Definition clear (out : list byte) : list byte :=
  out ++ [x1b; x5b; x31; x3b; x31; x48; x1b; x5b; x32; x4a; x0a].

(** The UTF-8 encoding of the black square U+25A0. *)
Definition ALIVE : list byte := [xe2; x96; xa0].
Definition DEAD : byte := x20.
Definition DEBUG : bool := false.
Definition AUTO : bool := true.

(** The conversion [%d] of [printf]. *)
Definition print_int (v : Z) : list byte :=
  String.list_byte_of_string
    (DecimalString.NilZero.string_of_int (Z.to_int v)).

Definition printgrid (grid : list Z) (out : list byte) : option (list byte) :=
  for_each (fun y out =>
      out ← for_each (fun x out =>
                 c ← getcell grid x y;
                 Some (out ++ print_int c ++ [x20]))
               (seqZ 0 COLS) out;
      Some (out ++ [x0a]))
    (seqZ 0 ROWS) out.

Definition draw (grid : list Z) (out : list byte) : option (list byte) :=
  let out := clear out in
  if DEBUG then printgrid grid out
  else
    for_each (fun y out =>
        out ← for_each (fun x out =>
                   c ← load grid (cellindex x y);
                   Some (out ++ (if decide (c = 1) then ALIVE ++ [x20]
                                 else [DEAD; x20])))
                 (seqZ 0 COLS) out;
        Some (out ++ [x0a]))
      (seqZ 0 ROWS) out.

(** ** The program *)

(** [n] iterations of the loop [while (1)] of [main]; [usleep] only
    waits. *)
Fixpoint auto_loop (n : nat) (grid : list Z) (out : list byte)
    : option (list Z * list byte) :=
  match n with
  | O => Some (grid, out)
  | S n' =>
      grid ← update grid;
      out ← draw grid out;
      auto_loop n' grid out
  end.

(** The loop [while ((ch = getchar()) == 10)] on the characters [stdin]
    still holds; at its end [getchar] returns [EOF]. *)
Fixpoint manual_loop (stdin : list Z) (grid : list Z) (out : list byte)
    : option (list Z * list byte) :=
  match stdin with
  | ch :: rest =>
      if decide (ch = 10) then
        grid ← update grid;
        out ← draw grid out;
        manual_loop rest grid out
      else Some (grid, out)
  | [] => Some (grid, out)
  end.

(** [main] after [ticks] iterations of its automatic loop, or after it
    has left its manual loop: the grid and what was printed. *)
Definition main (ticks : nat) (stdin : list Z) (stack : list Z)
    : option (list Z * list byte) :=
  grid ← init stack;
  grid ← setup grid;
  out ← draw grid [];
  if AUTO then auto_loop ticks grid out else manual_loop stdin grid out.

(** ** Auxiliary definitions for the properties of the whole program *)

(** The sum [count_alive_neighbors] returns where [cellindex] wraps. *)
Definition neighbor_sum (grid : list Z) (x y : Z) : Z :=
  CInt.add (CInt.add (CInt.add (CInt.add (CInt.add (CInt.add (CInt.add
    (spec_get grid (x - 1) (y - 1)) (spec_get grid x (y - 1)))
    (spec_get grid (x + 1) (y - 1))) (spec_get grid (x - 1) y))
    (spec_get grid (x + 1) y)) (spec_get grid (x - 1) (y + 1)))
    (spec_get grid x (y + 1))) (spec_get grid (x + 1) (y + 1)).

(** The grid moved by [ox] columns and [oy] rows around the torus: its
    cell [(x, y)] is the cell [(x - ox, y - oy)] of [grid]. *)
Definition translate (ox oy : Z) (grid : list Z) : list Z :=
  (fun i => spec_get grid (i mod COLS - ox) (i / COLS - oy))
    <$> seqZ 0 (COLS * ROWS).

(** What [draw] prints for a cell. *)
Definition glyph (c : Z) : list byte :=
  if decide (c = 1) then ALIVE ++ [x20] else [DEAD; x20].

Definition frame_of (cell : Z → list byte) (grid : list Z) : list byte :=
  mjoin ((fun y => mjoin ((fun x => cell (spec_get grid x y)) <$> seqZ 0 COLS)
                   ++ [x0a]) <$> seqZ 0 ROWS).

(** The grid [setup] builds from the all-zero grid. *)
Definition seed : list Z :=
  pattern_of (fun x y => bool_decide ((x, y) ∈ setup_cells)).

(** Number of newline characters at the head of the input. *)
Fixpoint leading_newlines (stdin : list Z) : nat :=
  match stdin with
  | ch :: rest => if decide (ch = 10) then S (leading_newlines rest) else O
  | [] => O
  end.

(** * Properties *)

(** ** Integer arithmetic *)

Lemma wrap_in_range z : CInt.in_range z → CInt.wrap z = z.
Proof.
  unfold CInt.in_range, CInt.wrap, CInt.min_signed, CInt.max_signed, CInt.modulus.
  intros Hz. rewrite Z.mod_small; lia.
Qed.

Lemma wrap_range z : CInt.in_range (CInt.wrap z).
Proof.
  unfold CInt.in_range, CInt.wrap, CInt.min_signed, CInt.max_signed, CInt.modulus.
  pose proof (Z.mod_pos_bound (z - -2147483648) 4294967296). lia.
Qed.

Lemma add_in_range a b : CInt.in_range (a + b) → CInt.add a b = a + b.
Proof. apply wrap_in_range. Qed.

Lemma sub_in_range a b : CInt.in_range (a - b) → CInt.sub a b = a - b.
Proof. apply wrap_in_range. Qed.

(** ** Coordinates *)

Lemma mod_plus_modulus a n : 0 < n → (a + n) mod n = a mod n.
Proof. intros. replace (a + n) with (a + 1 * n) by lia. apply Z_mod_plus_full. Qed.

Lemma spec_index_mod x y :
  spec_index x y = (y mod ROWS) * COLS + x mod COLS.
Proof.
  unfold spec_index.
  rewrite !mod_plus_modulus by done. by rewrite !Z.mod_mod by done.
Qed.

Lemma spec_index_bounds x y : 0 <= spec_index x y < COLS * ROWS.
Proof.
  rewrite spec_index_mod. unfold ROWS, COLS.
  pose proof (Z.mod_pos_bound y 30). pose proof (Z.mod_pos_bound x 70). lia.
Qed.

Lemma cellindex_wraps x y : wraps x y → cellindex x y = spec_index x y.
Proof.
  unfold wraps, cellindex, CInt.rem, CInt.mul, CInt.max_signed.
  rewrite spec_index_mod. unfold ROWS, COLS. intros [Hx Hy].
  rewrite (add_in_range x 70), (add_in_range y 30)
    by (unfold CInt.in_range, CInt.min_signed, CInt.max_signed; lia).
  rewrite !Z.rem_mod_nonneg by lia.
  rewrite !mod_plus_modulus by lia.
  pose proof (Z.mod_pos_bound y 30). pose proof (Z.mod_pos_bound x 70).
  rewrite (wrap_in_range (_ * _)) by (unfold CInt.in_range, CInt.min_signed, CInt.max_signed; lia).
  apply add_in_range. unfold CInt.in_range, CInt.min_signed, CInt.max_signed; lia.
Qed.

Lemma spec_index_grid x y :
  0 <= x < COLS → 0 <= y < ROWS → spec_index x y = y * COLS + x.
Proof.
  intros. rewrite spec_index_mod. by rewrite !Z.mod_small by lia.
Qed.

Lemma spec_index_linear i :
  0 <= i < COLS * ROWS → spec_index (i mod COLS) (i / COLS) = i.
Proof.
  unfold ROWS, COLS. intros Hi.
  pose proof (Z.mod_pos_bound i 70). 
  assert (0 <= i / 70 < 30) by (split; [apply Z.div_pos; lia | apply Z.div_lt_upper_bound; lia]).
  rewrite spec_index_grid by (unfold ROWS, COLS; lia).
  unfold COLS. pose proof (Z.div_mod i 70). lia.
Qed.

Lemma linear_coords i :
  0 <= i < COLS * ROWS → 0 <= i mod COLS < COLS ∧ 0 <= i / COLS < ROWS.
Proof.
  unfold ROWS, COLS. intros Hi. split; [apply Z.mod_pos_bound; lia|].
  split; [apply Z.div_pos; lia | apply Z.div_lt_upper_bound; lia].
Qed.

(** ** Array accesses *)

Lemma load_lookup a i : 0 <= i → load a i = a !! Z.to_nat i.
Proof. intros. unfold load. by rewrite decide_True. Qed.

Lemma load_negative a i : i < 0 → load a i = None.
Proof. intros. unfold load. rewrite decide_False; [done | lia]. Qed.

Lemma store_insert a i v :
  0 <= i < Z.of_nat (length a) → store a i v = Some (<[Z.to_nat i := v]> a).
Proof. intros. unfold store. by rewrite decide_True. Qed.

Lemma store_negative a i v : i < 0 → store a i v = None.
Proof. intros. unfold store. rewrite decide_False; [done | lia]. Qed.

Lemma CELLS_eq : Z.of_nat CELLS = COLS * ROWS.
Proof. reflexivity. Qed.

Lemma getcell_wraps g x y :
  wf g → wraps x y → getcell g x y = Some (spec_get g x y).
Proof.
  intros Hg Hw. unfold getcell, spec_get. rewrite cellindex_wraps by done.
  pose proof (spec_index_bounds x y).
  rewrite load_lookup by lia.
  destruct (lookup_lt_is_Some_2 g (Z.to_nat (spec_index x y))) as [c ->]; [|done].
  rewrite Hg. pose proof CELLS_eq. lia.
Qed.

Lemma setcell_wraps g x y v :
  wf g → wraps x y →
  setcell g x y v = Some (<[Z.to_nat (spec_index x y) := v]> g).
Proof.
  intros Hg Hw. unfold setcell. rewrite cellindex_wraps by done.
  pose proof (spec_index_bounds x y). pose proof CELLS_eq.
  apply store_insert. rewrite Hg. lia.
Qed.

(** ** Loops *)

Lemma for_each_inv {A S : Type} (I : list A → S → Prop)
    (body : A → S → option S) (l : list A) :
  (∀ done a s, I done s → a ∈ l →
     ∃ s', body a s = Some s' ∧ I (done ++ [a]) s') →
  ∀ pre s, I pre s → ∃ s', for_each body l s = Some s' ∧ I (pre ++ l) s'.
Proof.
  induction l as [|a l IH]; intros Hbody pre s Hs; simpl.
  - exists s. by rewrite app_nil_r.
  - destruct (Hbody pre a s Hs) as (s1 & -> & Hs1); [left|].
    destruct (IH (fun d b s0 H Hb => Hbody d b s0 H (list_elem_of_further _ _ _ Hb)) _ _ Hs1)
      as (s2 & Hrun & Hs2).
    exists s2. split; [done|]. by rewrite <- app_assoc in Hs2.
Qed.

(** A loop that assigns every element of an array of [n] cells. *)
Lemma fill_loop (f : Z → option Z) (h : Z → Z) (d : list Z) (n : Z) :
  Z.of_nat (length d) = n →
  (∀ i, 0 <= i < n → f i = Some (h i)) →
  for_each (fun i d => v ← f i; store d i v) (seqZ 0 n) d
  = Some (h <$> seqZ 0 n).
Proof.
  intros Hlen Hf.
  pose (I := fun (done : list Z) (d' : list Z) =>
    length d' = length d ∧
    ∀ i, i ∈ done → 0 <= i ∧ d' !! Z.to_nat i = Some (h i)).
  destruct (for_each_inv I (fun i d => v ← f i; store d i v) (seqZ 0 n)) with (pre := @nil Z) (s := d)
    as (r & Hrun & Hlenr & Hr).
  - intros done a d' [Hl Hd] Ha. apply elem_of_seqZ in Ha.
    rewrite (Hf a) by lia. simpl. rewrite store_insert by lia.
    eexists; split; [done|]. split; [by rewrite length_insert|].
    intros i [Hi| ->%list_elem_of_singleton]%elem_of_app.
    + destruct (Hd i Hi) as [Hi0 Hv]. split; [done|].
      destruct (decide (i = a)) as [->|Hne].
      * apply list_lookup_insert_eq. lia.
      * rewrite list_lookup_insert_ne by lia. done.
    + split; [lia|]. apply list_lookup_insert_eq. lia.
  - split; [done|]. intros i Hi. by apply elem_of_nil in Hi.
  - rewrite Hrun. f_equal. apply list_eq. intros j.
    rewrite list_lookup_fmap.
    destruct (decide (Z.of_nat j < n)) as [Hj|Hj].
    + rewrite lookup_seqZ_lt by done. simpl.
      destruct (Hr (Z.of_nat j)) as [_ Hv]; [apply elem_of_seqZ; lia|].
      by rewrite Nat2Z.id in Hv.
    + rewrite lookup_seqZ_ge by lia. simpl.
      apply lookup_ge_None_2. lia.
Qed.

Lemma init_zero stack : wf stack → init stack = Some dead_grid.
Proof.
  intros Hs. unfold init.
  change (fun (i : Z) (g : list Z) => store g i 0)
    with (fun (i : Z) (g : list Z) => v ← (fun _ : Z => Some 0) i; store g i v).
  rewrite (fill_loop _ (fun _ => 0)); [done| |done].
  rewrite Hs. apply CELLS_eq.
Qed.

Lemma copygrid_wf source dest :
  wf source → wf dest → copygrid source dest = Some source.
Proof.
  intros Hs Hd. unfold copygrid.
  rewrite (fill_loop _ (fun i => default 0 (source !! Z.to_nat i))).
  - f_equal. apply list_eq. intros j. rewrite list_lookup_fmap.
    destruct (decide (Z.of_nat j < ROWS * COLS)) as [Hj|Hj].
    + rewrite lookup_seqZ_lt by done. rewrite Z.add_0_l.
      cbn [fmap option_fmap option_map]. rewrite Nat2Z.id.
      destruct (lookup_lt_is_Some_2 source j) as [c ->]; [|done].
      rewrite Hs. pose proof CELLS_eq. lia.
    + rewrite lookup_seqZ_ge by lia. simpl. symmetry.
      apply lookup_ge_None_2. rewrite Hs. pose proof CELLS_eq. lia.
  - rewrite Hd. pose proof CELLS_eq. lia.
  - intros i Hi. rewrite load_lookup by lia.
    destruct (lookup_lt_is_Some_2 source (Z.to_nat i)) as [c ->]; [|done].
    rewrite Hs. pose proof CELLS_eq. lia.
Qed.

(** ** Neighbour counts *)

Lemma interior_grid x y : 0 <= x < COLS → 0 <= y < ROWS → interior x y.
Proof. unfold interior, COLS, ROWS, CInt.max_signed. lia. Qed.

Lemma grid_wraps x y : 0 <= x < COLS → 0 <= y < ROWS → wraps x y.
Proof. unfold wraps, COLS, ROWS, CInt.max_signed. lia. Qed.

Lemma count_interior g x y :
  wf g → interior x y →
  count_alive_neighbors g x y =
  Some (CInt.add (CInt.add (CInt.add (CInt.add (CInt.add (CInt.add (CInt.add
    (spec_get g (x - 1) (y - 1)) (spec_get g x (y - 1)))
    (spec_get g (x + 1) (y - 1))) (spec_get g (x - 1) y))
    (spec_get g (x + 1) y)) (spec_get g (x - 1) (y + 1)))
    (spec_get g x (y + 1))) (spec_get g (x + 1) (y + 1))).
Proof.
  intros Hg [Hx Hy]. unfold count_alive_neighbors.
  unfold COLS, ROWS, CInt.max_signed in Hx, Hy.
  rewrite (sub_in_range x 1), (sub_in_range y 1), (add_in_range x 1), (add_in_range y 1)
    by (unfold CInt.in_range, CInt.min_signed, CInt.max_signed; lia).
  rewrite !(getcell_wraps g)
    by (done || unfold wraps, COLS, ROWS, CInt.max_signed; lia).
  done.
Qed.

Lemma binary_spec_get g x y : binary g → spec_get g x y = 0 ∨ spec_get g x y = 1.
Proof.
  intros Hb. unfold spec_get.
  destruct (g !! Z.to_nat (spec_index x y)) as [c|] eqn:Hc; simpl; [|by left].
  by apply (Forall_lookup_1 _ _ _ _ Hb Hc).
Qed.

Lemma spec_count_unfold g x y :
  spec_count g x y =
  spec_get g (x - 1) (y - 1) + spec_get g x (y - 1) + spec_get g (x + 1) (y - 1)
  + spec_get g (x - 1) y + spec_get g (x + 1) y
  + spec_get g (x - 1) (y + 1) + spec_get g x (y + 1) + spec_get g (x + 1) (y + 1).
Proof.
  unfold spec_count, neighbor_offsets. simpl.
  rewrite !Z.add_0_r. replace (x + -1) with (x - 1) by lia.
  replace (y + -1) with (y - 1) by lia. lia.
Qed.

Lemma spec_count_bounds g x y : binary g → 0 <= spec_count g x y <= 8.
Proof.
  intros Hb. rewrite spec_count_unfold.
  pose proof (binary_spec_get g (x - 1) (y - 1) Hb).
  pose proof (binary_spec_get g x (y - 1) Hb).
  pose proof (binary_spec_get g (x + 1) (y - 1) Hb).
  pose proof (binary_spec_get g (x - 1) y Hb).
  pose proof (binary_spec_get g (x + 1) y Hb).
  pose proof (binary_spec_get g (x - 1) (y + 1) Hb).
  pose proof (binary_spec_get g x (y + 1) Hb).
  pose proof (binary_spec_get g (x + 1) (y + 1) Hb).
  lia.
Qed.

(** On a grid of zeros and ones the sum never leaves the [int] range, and
    the count is the sum of the eight wrapped neighbours. *)
Lemma count_binary g x y :
  wf g → binary g → interior x y →
  count_alive_neighbors g x y = Some (spec_count g x y).
Proof.
  intros Hg Hb Hi. rewrite count_interior by done. f_equal.
  rewrite spec_count_unfold.
  pose proof (binary_spec_get g (x - 1) (y - 1) Hb).
  pose proof (binary_spec_get g x (y - 1) Hb).
  pose proof (binary_spec_get g (x + 1) (y - 1) Hb).
  pose proof (binary_spec_get g (x - 1) y Hb).
  pose proof (binary_spec_get g (x + 1) y Hb).
  pose proof (binary_spec_get g (x - 1) (y + 1) Hb).
  pose proof (binary_spec_get g x (y + 1) Hb).
  pose proof (binary_spec_get g (x + 1) (y + 1) Hb).
  rewrite !add_in_range; [done|..];
    repeat (rewrite add_in_range);
    unfold CInt.in_range, CInt.min_signed, CInt.max_signed; lia.
Qed.

(** ** The generation step *)

Lemma lookup_spec_get g x y :
  wf g → g !! Z.to_nat (spec_index x y) = Some (spec_get g x y).
Proof.
  intros Hg. unfold spec_get. pose proof (spec_index_bounds x y).
  destruct (lookup_lt_is_Some_2 g (Z.to_nat (spec_index x y))) as [c ->]; [|done].
  rewrite Hg. pose proof CELLS_eq. lia.
Qed.

Lemma next_grid_wf g : wf (next_grid g).
Proof. unfold wf, next_grid. by rewrite length_fmap, length_seqZ. Qed.

Lemma next_grid_lookup g x y :
  0 <= x < COLS → 0 <= y < ROWS →
  next_grid g !! Z.to_nat (spec_index x y) = Some (next_cell g x y).
Proof.
  intros Hx Hy. rewrite spec_index_grid by done. unfold next_grid.
  rewrite list_lookup_fmap, lookup_seqZ_lt by (unfold COLS, ROWS in *; lia).
  rewrite Z.add_0_l, Z2Nat.id by (unfold COLS in *; lia).
  cbn [fmap option_fmap option_map].
  assert ((y * COLS + x) mod COLS = x) as ->.
  { rewrite Z.add_comm, Z_mod_plus_full. apply Z.mod_small. lia. }
  assert ((y * COLS + x) / COLS = y) as ->; [|done].
  rewrite Z.div_add_l by done. rewrite Z.div_small by lia. lia.
Qed.

Lemma cell_of_index (k : nat) :
  (k < CELLS)%nat →
  ∃ x y, 0 <= x < COLS ∧ 0 <= y < ROWS ∧ k = Z.to_nat (spec_index x y).
Proof.
  intros Hk. pose proof CELLS_eq.
  exists (Z.of_nat k mod COLS), (Z.of_nat k / COLS).
  destruct (linear_coords (Z.of_nat k)) as [Hx Hy]; [lia|].
  split; [done|]. split; [done|].
  rewrite spec_index_linear by lia. by rewrite Nat2Z.id.
Qed.

Lemma upd_inv_mono g (S S' : nat → Prop) cpy :
  (∀ k, S' k → S k) → upd_inv g S cpy → upd_inv g S' cpy.
Proof.
  intros HS [Hl H]. split; [done|]. intros k Hk.
  destruct (H k Hk) as [H1 H2]. split; [done|]. auto.
Qed.

Section update_loops.
Variable g : list Z.
Hypothesis Hg : wf g.

Lemma update_cell_effect cpy x y :
  0 <= x < COLS → 0 <= y < ROWS →
  length cpy = CELLS →
  cpy !! Z.to_nat (spec_index x y) = Some (spec_get g x y)
  ∨ cpy !! Z.to_nat (spec_index x y) = Some (next_cell g x y) →
  ∃ cpy', update_cell g y x cpy = Some cpy' ∧
    length cpy' = CELLS ∧
    cpy' !! Z.to_nat (spec_index x y) = Some (next_cell g x y) ∧
    ∀ k, k ≠ Z.to_nat (spec_index x y) → cpy' !! k = cpy !! k.
Proof using Hg.
  intros Hx Hy Hl Hold.
  pose proof (spec_index_bounds x y) as Hb. pose proof CELLS_eq as HC.
  unfold update_cell, next_cell in *.
  rewrite count_interior in * by auto using interior_grid.
  rewrite getcell_wraps in * by auto using grid_wraps.
  cbn [mbind option_bind default] in *.
  set (n := CInt.add _ _) in *. set (c := spec_get g x y) in *.
  unfold cell_after in *.
  repeat case_decide;
    try (rewrite setcell_wraps by (done || auto using grid_wraps);
         eexists; split; [done|];
         split; [by rewrite length_insert|];
         split; [apply list_lookup_insert_eq; lia|];
         intros k Hk; by apply list_lookup_insert_ne);
    try (exists cpy; split; [done|]; split; [done|]; split; [|done];
         destruct Hold as [Hold|Hold]; by rewrite Hold).
Qed.

Lemma update_cell_inv (S : nat → Prop) cpy x y :
  0 <= x < COLS → 0 <= y < ROWS → upd_inv g S cpy →
  ∃ cpy', update_cell g y x cpy = Some cpy' ∧
    upd_inv g (fun k => S k ∨ k = Z.to_nat (spec_index x y)) cpy'.
Proof using Hg.
  intros Hx Hy [Hl Hinv].
  pose proof (spec_index_bounds x y) as Hb. pose proof CELLS_eq as HC.
  destruct (update_cell_effect cpy x y Hx Hy Hl) as (cpy' & Hrun & Hl' & Hat & Hother).
  { destruct (Hinv (Z.to_nat (spec_index x y))) as [[H|H] _]; [lia|left|right].
    - by rewrite H, lookup_spec_get.
    - by rewrite H, next_grid_lookup. }
  exists cpy'. split; [done|]. split; [done|]. intros k Hk.
  destruct (decide (k = Z.to_nat (spec_index x y))) as [->|Hne].
  - rewrite Hat, next_grid_lookup by done. auto.
  - rewrite Hother by done. destruct (Hinv k Hk) as [H1 H2].
    split; [done|]. intros [?|?]; [auto|done].
Qed.

Lemma update_row_inv (S : nat → Prop) cpy y :
  0 <= y < ROWS → upd_inv g S cpy →
  ∃ cpy', for_each (update_cell g y) (seqZ 0 COLS) cpy = Some cpy' ∧
    upd_inv g (fun k => S k ∨
      ∃ x, 0 <= x < COLS ∧ k = Z.to_nat (spec_index x y)) cpy'.
Proof using Hg.
  intros Hy Hinv.
  pose (I := fun (done : list Z) (c : list Z) =>
    upd_inv g (fun k => S k ∨ ∃ x, x ∈ done ∧ k = Z.to_nat (spec_index x y)) c).
  destruct (for_each_inv I (update_cell g y) (seqZ 0 COLS)) with (pre := @nil Z) (s := cpy)
    as (r & Hrun & Hr).
  - intros done x c Hc Hx%elem_of_seqZ.
    destruct (update_cell_inv _ c x y ltac:(lia) Hy Hc) as (c' & Hstep & Hc').
    exists c'. split; [done|]. revert Hc'. apply upd_inv_mono.
    intros k [?|(x' & [Hx'| ->%list_elem_of_singleton]%elem_of_app & ->)]; eauto.
  - revert Hinv. apply upd_inv_mono.
    intros k [?|(x & Hx%elem_of_nil & _)]; done.
  - exists r. split; [done|]. revert Hr. apply upd_inv_mono.
    intros k [?|(x & Hx & ->)]; [by left|right].
    exists x. split; [|done]. apply elem_of_seqZ. lia.
Qed.

Lemma update_rows_inv cpy :
  upd_inv g (fun _ => False) cpy →
  for_each (fun y c => for_each (update_cell g y) (seqZ 0 COLS) c)
           (seqZ 0 ROWS) cpy = Some (next_grid g).
Proof using Hg.
  intros Hinv.
  pose (I := fun (done : list Z) (c : list Z) =>
    upd_inv g (fun k => ∃ x y, y ∈ done ∧ 0 <= x < COLS
                          ∧ k = Z.to_nat (spec_index x y)) c).
  destruct (for_each_inv I
              (fun y c => for_each (update_cell g y) (seqZ 0 COLS) c)
              (seqZ 0 ROWS)) with (pre := @nil Z) (s := cpy)
    as (r & Hrun & Hl & Hr).
  - intros done y c Hc Hy%elem_of_seqZ.
    destruct (update_row_inv _ c y ltac:(lia) Hc) as (c' & Hstep & Hc').
    exists c'. split; [done|]. revert Hc'. apply upd_inv_mono.
    intros k (x & y' & [Hy'| ->%list_elem_of_singleton]%elem_of_app & Hx & ->).
    + left. eauto.
    + right. eauto.
  - revert Hinv. apply upd_inv_mono.
    intros k (x & y & Hy%elem_of_nil & _); done.
  - rewrite Hrun. f_equal. apply list_eq. intros k.
    destruct (decide (k < CELLS)%nat) as [Hk|Hk].
    + apply Hr; [done|].
      destruct (cell_of_index k Hk) as (x & y & Hx & Hy & ->).
      exists x, y. split; [|done]. apply elem_of_seqZ. lia.
    + rewrite !lookup_ge_None_2; [done|rewrite next_grid_wf; lia|lia].
Qed.

(** [update] returns the grid of next values, whatever the local array
    held. *)
Lemma update_on_next scratch :
  wf scratch → update_on scratch g = Some (next_grid g).
Proof using Hg.
  intros Hs. unfold update_on.
  rewrite copygrid_wf by done. cbn [mbind option_bind].
  rewrite update_rows_inv.
  - cbn [mbind option_bind]. apply copygrid_wf; [apply next_grid_wf|done].
  - split; [done|]. intros k Hk. split; [by left|done].
Qed.

Lemma update_next : update g = Some (next_grid g).
Proof using Hg.
  apply update_on_next. unfold wf. apply length_replicate.
Qed.

End update_loops.

(** ** [update] against the rule table *)

Lemma cell_after_rule c n : c = 0 ∨ c = 1 → cell_after c n = life_rule c n.
Proof.
  unfold cell_after, life_rule. intros [-> | ->]; repeat case_decide; lia.
Qed.

Lemma next_cell_rule g x y :
  wf g → binary g → 0 <= x < COLS → 0 <= y < ROWS →
  next_cell g x y = life_rule (spec_get g x y) (spec_count g x y).
Proof.
  intros Hg Hb Hx Hy. unfold next_cell.
  rewrite getcell_wraps by auto using grid_wraps.
  rewrite count_binary by auto using interior_grid.
  cbn [mbind option_bind default].
  apply cell_after_rule, binary_spec_get, Hb.
Qed.

Lemma next_grid_advance g : wf g → binary g → next_grid g = advance_spec g.
Proof.
  intros Hg Hb. unfold next_grid, advance_spec.
  apply Forall_fmap_ext_1, Forall_seqZ. intros i Hi.
  destruct (linear_coords i) as [Hx Hy]; [lia|].
  by apply next_cell_rule.
Qed.

Lemma life_rule_binary c n : life_rule c n = 0 ∨ life_rule c n = 1.
Proof. unfold life_rule. repeat case_decide; auto. Qed.

Lemma advance_spec_binary g : binary (advance_spec g).
Proof.
  unfold binary, advance_spec. apply Forall_fmap, Forall_seqZ.
  intros i _. apply life_rule_binary.
Qed.

(** ** Patterns *)

Lemma pattern_wf p : wf (pattern_of p).
Proof. unfold wf, pattern_of. by rewrite length_fmap, length_seqZ. Qed.

Lemma pattern_binary p : binary (pattern_of p).
Proof.
  unfold binary, pattern_of. apply Forall_fmap, Forall_seqZ.
  intros i _. simpl. destruct (p _ _); auto.
Qed.

Lemma spec_get_pattern p x y :
  spec_get (pattern_of p) x y = alive (p (x mod COLS) (y mod ROWS)).
Proof.
  unfold spec_get, pattern_of.
  pose proof (spec_index_bounds x y) as Hb.
  rewrite list_lookup_fmap, lookup_seqZ_lt by lia.
  rewrite Z.add_0_l, Z2Nat.id by lia.
  cbn [fmap option_fmap option_map default].
  rewrite spec_index_mod.
  pose proof (Z.mod_pos_bound x COLS eq_refl).
  pose proof (Z.mod_pos_bound y ROWS eq_refl).
  assert (((y mod ROWS) * COLS + x mod COLS) mod COLS = x mod COLS) as ->.
  { rewrite Z.add_comm, Z_mod_plus_full. apply Z.mod_small. lia. }
  assert (((y mod ROWS) * COLS + x mod COLS) / COLS = y mod ROWS) as ->; [|done].
  rewrite Z.div_add_l by done. rewrite Z.div_small by lia. lia.
Qed.

Lemma spec_count_pattern p x y :
  spec_count (pattern_of p) x y = live_around p x y.
Proof.
  unfold spec_count, live_around. f_equal.
  apply Forall_fmap_ext_1, Forall_forall. intros d _. apply spec_get_pattern.
Qed.

Lemma life_rule_alive b n :
  life_rule (alive b) n
  = alive (if b then (n =? 2) || (n =? 3) else (n =? 3)).
Proof.
  unfold life_rule, alive.
  destruct b; repeat case_decide;
    destruct (Z.eqb_spec n 2), (Z.eqb_spec n 3); simpl; lia.
Qed.

Lemma advance_pattern p : advance_spec (pattern_of p) = pattern_of (evolve p).
Proof.
  unfold advance_spec. unfold pattern_of at 3.
  apply Forall_fmap_ext_1, Forall_seqZ. intros i Hi.
  destruct (linear_coords i) as [Hx Hy]; [lia|].
  rewrite spec_get_pattern, spec_count_pattern, life_rule_alive.
  unfold evolve.
  by rewrite (Z.mod_small (i mod COLS)), (Z.mod_small (i / COLS)) by done.
Qed.

Lemma update_advance g : wf g → binary g → update g = Some (advance_spec g).
Proof. intros Hg Hb. rewrite update_next by done. by rewrite next_grid_advance. Qed.

Lemma update_pattern p : update (pattern_of p) = Some (pattern_of (evolve p)).
Proof.
  rewrite update_advance by auto using pattern_wf, pattern_binary.
  by rewrite advance_pattern.
Qed.

Lemma pattern_ext p q :
  (∀ x y, 0 <= x < COLS → 0 <= y < ROWS → p x y = q x y) →
  pattern_of p = pattern_of q.
Proof.
  intros Hpq. unfold pattern_of. apply Forall_fmap_ext_1, Forall_seqZ.
  intros i Hi. destruct (linear_coords i) as [Hx Hy]; [lia|].
  by rewrite Hpq.
Qed.

(** A well-formed grid is determined by the states of its cells. *)
Lemma pattern_unique p g :
  wf g →
  (∀ x y, 0 <= x < COLS → 0 <= y < ROWS → getcell g x y = Some (alive (p x y))) →
  g = pattern_of p.
Proof.
  intros Hg Hcells. apply list_eq. intros k.
  destruct (decide (k < CELLS)%nat) as [Hk|Hk].
  - destruct (cell_of_index k Hk) as (x & y & Hx & Hy & ->).
    rewrite !lookup_spec_get by auto using pattern_wf. f_equal.
    specialize (Hcells x y Hx Hy).
    rewrite getcell_wraps in Hcells by auto using grid_wraps.
    injection Hcells as ->. rewrite spec_get_pattern.
    by rewrite !Z.mod_small by done.
  - rewrite !lookup_ge_None_2; [done|rewrite pattern_wf; lia|rewrite Hg; lia].
Qed.

Lemma agree_on_torus_spec p q :
  agree_on_torus p q = true →
  ∀ u v, 0 <= u < COLS → 0 <= v < ROWS → p u v = q u v.
Proof.
  unfold agree_on_torus. intros H u v Hu Hv.
  apply Is_true_true_2, forallb_True in H.
  rewrite Forall_seqZ in H. specialize (H u ltac:(lia)).
  apply forallb_True in H. rewrite Forall_seqZ in H.
  specialize (H v ltac:(lia)). by apply bool_decide_unpack in H.
Qed.

Lemma shift_mod (ox d x n : Z) :
  0 < n → ((x + d) mod n - ox) mod n = ((x - ox) mod n + d) mod n.
Proof.
  intros Hn. rewrite Zminus_mod_idemp_l, Zplus_mod_idemp_l.
  f_equal. lia.
Qed.

(** The rule commutes with translations of the torus. *)
Lemma evolve_shift q ox oy x y :
  evolve (shift q ox oy) x y = shift (evolve q) ox oy x y.
Proof.
  unfold evolve, shift, live_around, neighbor_offsets. simpl.
  by rewrite !shift_mod by done.
Qed.

Lemma update_shift q q' ox oy :
  agree_on_torus (evolve q) q' = true →
  update (pattern_of (shift q ox oy)) = Some (pattern_of (shift q' ox oy)).
Proof.
  intros Hq. rewrite update_pattern. f_equal. apply pattern_ext.
  intros x y _ _. rewrite evolve_shift. unfold shift.
  apply (agree_on_torus_spec _ _ Hq); by apply Z.mod_pos_bound.
Qed.

(** ** Where [cellindex] wraps, and where it does not *)

Lemma spec_index_periodic x y j k :
  spec_index (x + j * COLS) (y + k * ROWS) = spec_index x y.
Proof. rewrite !spec_index_mod. by rewrite !Z_mod_plus_full. Qed.

Lemma cellindex_periodic x y j k :
  wraps x y → wraps (x + j * COLS) (y + k * ROWS) →
  cellindex (x + j * COLS) (y + k * ROWS) = cellindex x y.
Proof.
  intros H1 H2. rewrite !cellindex_wraps by done. apply spec_index_periodic.
Qed.

Lemma cellindex_in_bounds x y : wraps x y → 0 <= cellindex x y < COLS * ROWS.
Proof. intros H. rewrite cellindex_wraps by done. apply spec_index_bounds. Qed.

(** C1: [index(x + k*W, y) = index(x, y)] for every integer [k], with
    negative inputs of any magnitude wrapped to the positive range.
    [cellindex] adds one period before taking the truncating remainder,
    so a column more than one period below the grid keeps a negative
    remainder: for the in-bounds cell [(69, 0)] and [k = -2] it returns
    [-1], where the wrapped index is [69]. *)
Theorem cellindex_two_periods_below :
  cellindex (69 + -2 * COLS) 0 = -1 ∧
  cellindex 69 0 = 69 ∧
  spec_index (69 + -2 * COLS) 0 = 69.
Proof. repeat split; reflexivity. Qed.

(** C3: [get] and [set] never fail, whatever the integer coordinates.
    At [(-71, 0)] the index [cellindex] returns is [-1], so [getcell] and
    [setcell] access [grid[-1]], outside every array. *)
Theorem getcell_setcell_below_one_period (g : list Z) (v : Z) :
  cellindex (-71) 0 = -1 ∧
  getcell g (-71) 0 = None ∧
  setcell g (-71) 0 v = None.
Proof.
  split; [reflexivity|]. unfold getcell, setcell.
  change (cellindex (-71) 0) with (-1).
  split; [by apply load_negative | by apply store_negative].
Qed.

(** C4: for every coordinate [(x, y)] the neighbour count is the sum of
    the eight wrapped neighbours and lies in [[0, 8]].  At [(-80, 0)] the
    western lookup reads [grid[-11]], outside every array; at [(-80, 5)],
    on the grid whose only live cell is [(59, 6)], the south-western
    neighbour of the wrapped cell [(60, 5)], the count is [0] where the
    sum of the wrapped neighbours is [1]. *)
Theorem count_alive_neighbors_below_one_period (g : list Z) :
  count_alive_neighbors g (-80) 0 = None ∧
  count_alive_neighbors (<[Z.to_nat (spec_index 59 6) := 1]> dead_grid) (-80) 5
    = Some 0 ∧
  spec_count (<[Z.to_nat (spec_index 59 6) := 1]> dead_grid) (-80) 5 = 1.
Proof.
  split; [|split; vm_compute; reflexivity].
  unfold count_alive_neighbors.
  destruct (getcell g (CInt.sub (-80) 1) (CInt.sub 0 1)); [|done].
  destruct (getcell g (-80) (CInt.sub 0 1)); [|done].
  destruct (getcell g (CInt.add (-80) 1) (CInt.sub 0 1)); [|done].
  assert (getcell g (CInt.sub (-80) 1) 0 = None) as ->; [|done].
  unfold getcell. by apply load_negative.
Qed.

(** For the coordinates [update] passes, and for all whose neighbours lie
    where [cellindex] wraps, the count is the sum of the eight wrapped
    neighbours and lies in [[0, 8]]. *)
Lemma count_alive_neighbors_interior g x y :
  wf g → binary g → interior x y →
  ∃ n, count_alive_neighbors g x y = Some n ∧ n = spec_count g x y ∧ 0 <= n <= 8.
Proof.
  intros Hg Hb Hi. exists (spec_count g x y).
  split; [by apply count_binary|]. split; [done|]. by apply spec_count_bounds.
Qed.

(** C5: the neighbour count of [(0, 0)] includes the cell [(W-1, 0)] of
    the opposite edge as its western neighbour: when that cell is alive
    its [1] is a term of the sum. *)
Theorem west_neighbor_of_origin (g : list Z)
    (Hg : wf g) (Hw : getcell g (COLS - 1) 0 = Some 1) :
  cellindex (CInt.sub 0 1) 0 = cellindex (COLS - 1) 0 ∧
  count_alive_neighbors g 0 0 =
    Some (CInt.add (CInt.add (CInt.add (CInt.add (CInt.add (CInt.add (CInt.add
      (spec_get g (-1) (-1)) (spec_get g 0 (-1))) (spec_get g 1 (-1)))
      1) (spec_get g 1 0)) (spec_get g (-1) 1)) (spec_get g 0 1))
      (spec_get g 1 1)) ∧
  (binary g →
   count_alive_neighbors g 0 0 =
     Some (1 + (spec_get g (-1) (-1) + spec_get g 0 (-1) + spec_get g 1 (-1)
                + spec_get g 1 0
                + spec_get g (-1) 1 + spec_get g 0 1 + spec_get g 1 1)) ∧
   1 <= spec_count g 0 0 <= 8).
Proof.
  assert (Hwest : spec_get g (0 - 1) 0 = 1).
  { rewrite getcell_wraps in Hw by (done || by apply grid_wraps).
    injection Hw as Hw. by rewrite <- Hw at 2. }
  split; [reflexivity|].
  assert (Hi : interior 0 0) by (by apply interior_grid).
  split.
  - rewrite count_interior by done. by rewrite Hwest.
  - intros Hb. rewrite count_binary by done.
    pose proof (spec_count_bounds g 0 0 Hb) as Hc.
    rewrite spec_count_unfold in *. rewrite Hwest in *.
    pose proof (binary_spec_get g (0 - 1) (0 - 1) Hb).
    pose proof (binary_spec_get g 0 (0 - 1) Hb).
    pose proof (binary_spec_get g (0 + 1) (0 - 1) Hb).
    pose proof (binary_spec_get g (0 + 1) 0 Hb).
    pose proof (binary_spec_get g (0 - 1) (0 + 1) Hb).
    pose proof (binary_spec_get g 0 (0 + 1) Hb).
    pose proof (binary_spec_get g (0 + 1) (0 + 1) Hb).
    change (0 - 1) with (-1) in *. change (0 + 1) with 1 in *.
    split; [f_equal|]; lia.
Qed.

Lemma west_neighbor_of_origin_witness :
  wf (block (-1) 0) ∧ getcell (block (-1) 0) (COLS - 1) 0 = Some 1 ∧
  (cellindex (CInt.sub 0 1) 0 = cellindex (COLS - 1) 0 ∧
   count_alive_neighbors (block (-1) 0) 0 0 =
     Some (CInt.add (CInt.add (CInt.add (CInt.add (CInt.add (CInt.add (CInt.add
       (spec_get (block (-1) 0) (-1) (-1)) (spec_get (block (-1) 0) 0 (-1)))
       (spec_get (block (-1) 0) 1 (-1))) 1) (spec_get (block (-1) 0) 1 0))
       (spec_get (block (-1) 0) (-1) 1)) (spec_get (block (-1) 0) 0 1))
       (spec_get (block (-1) 0) 1 1)) ∧
   (binary (block (-1) 0) →
    count_alive_neighbors (block (-1) 0) 0 0 =
      Some (1 + (spec_get (block (-1) 0) (-1) (-1) + spec_get (block (-1) 0) 0 (-1)
                 + spec_get (block (-1) 0) 1 (-1) + spec_get (block (-1) 0) 1 0
                 + spec_get (block (-1) 0) (-1) 1 + spec_get (block (-1) 0) 0 1
                 + spec_get (block (-1) 0) 1 1)) ∧
    1 <= spec_count (block (-1) 0) 0 0 <= 8)).
Proof.
  assert (Hg : wf (block (-1) 0)) by (vm_compute; reflexivity).
  assert (Hw : getcell (block (-1) 0) (COLS - 1) 0 = Some 1)
    by (vm_compute; reflexivity).
  split; [exact Hg|]. split; [exact Hw|].
  exact (west_neighbor_of_origin (block (-1) 0) Hg Hw).
Defined.

(** ** The generation step on grids of zeros and ones *)

(** C2: on a grid of zeros and ones [update] returns the grid obtained by
    applying the rule table to every cell, the state and the eight
    neighbours of each cell being read in the grid as it was before the
    call. *)
Theorem update_follows_rule (g : list Z) (Hg : wf g) (Hb : binary g) :
  update g = Some (advance_spec g).
Proof. by apply update_advance. Qed.

Lemma update_follows_rule_witness :
  wf (blinker Horizontal 5 5) ∧ binary (blinker Horizontal 5 5) ∧
  update (blinker Horizontal 5 5) = Some (advance_spec (blinker Horizontal 5 5)).
Proof.
  assert (Hg : wf (blinker Horizontal 5 5)) by (vm_compute; reflexivity).
  assert (Hb : binary (blinker Horizontal 5 5))
    by (unfold binary; apply (bool_decide_unpack _); vm_compute; exact I).
  split; [exact Hg|]. split; [exact Hb|].
  exact (update_follows_rule (blinker Horizontal 5 5) Hg Hb).
Defined.

Lemma dead_grid_pattern : dead_grid = pattern_of (fun _ _ => false).
Proof. reflexivity. Qed.

(** C6: the all-dead grid advances to the all-dead grid. *)
Theorem no_spontaneous_generation : update dead_grid = Some dead_grid.
Proof.
  rewrite dead_grid_pattern, update_pattern.
  apply (f_equal Some), pattern_ext. intros x y _ _. reflexivity.
Qed.

(** The block is the grid the seeding calls of [setcell] build, also
    across the seam of the torus. *)
Example block_by_setcell :
  (g ← setcell dead_grid 10 10 1; g ← setcell g 11 10 1;
   g ← setcell g 10 11 1; setcell g 11 11 1) = Some (block 10 10) ∧
  (g ← setcell dead_grid 69 29 1; g ← setcell g 70 29 1;
   g ← setcell g 69 30 1; setcell g 70 30 1) = Some (block 69 29).
Proof. split; vm_compute; reflexivity. Qed.

(** C7: a grid holding exactly one 2 x 2 block, at any place of the torus,
    is a fixed point of [update]. *)
Theorem block_still_life (ox oy : Z) : update (block ox oy) = Some (block ox oy).
Proof. apply update_shift. vm_compute. reflexivity. Qed.

Example blinker_by_setcell :
  (g ← setcell dead_grid 4 5 1; g ← setcell g 5 5 1; setcell g 6 5 1)
    = Some (blinker Horizontal 5 5) ∧
  (g ← setcell dead_grid 0 (-1) 1; g ← setcell g 0 0 1; setcell g 0 1 1)
    = Some (blinker Vertical 0 0).
Proof. split; vm_compute; reflexivity. Qed.

Lemma blinker_turns o cx cy :
  update (blinker o cx cy) = Some (blinker (turn o) cx cy).
Proof. apply update_shift. destruct o; vm_compute; reflexivity. Qed.

Lemma blinker_turn_differs o cx cy : blinker (turn o) cx cy ≠ blinker o cx cy.
Proof.
  intros Heq.
  assert (H : spec_get (blinker (turn o) cx cy) (cx + 1) cy
              = spec_get (blinker o cx cy) (cx + 1) cy) by (by rewrite Heq).
  unfold blinker in H. rewrite !spec_get_pattern in H. unfold shift in H.
  rewrite !Zminus_mod_idemp_l in H.
  replace (cx + 1 - cx) with 1 in H by lia.
  replace (cy - cy) with 0 in H by lia.
  destruct o; vm_compute in H; discriminate.
Qed.

(** C8: a grid holding exactly three live cells in a row, horizontal or
    vertical, at any place of the torus, comes back after two generations
    and not after one. *)
Theorem blinker_period_two (o : orientation) (cx cy : Z) :
  (update (blinker o cx cy) ≫= update) = Some (blinker o cx cy) ∧
  update (blinker o cx cy) ≠ Some (blinker o cx cy).
Proof.
  rewrite blinker_turns. cbn [mbind option_bind]. split.
  - rewrite blinker_turns. by destruct o.
  - intros H. apply (inj Some) in H. by apply blinker_turn_differs in H.
Qed.

(** ** Totality and the absence of hidden state *)

Lemma generations_step n g :
  wf g → generations (S n) g = generations n (next_grid g).
Proof. intros Hg. cbn [generations]. rewrite update_next by exact Hg. reflexivity. Qed.

Lemma generations_wf n g :
  wf g → ∃ gn, generations n g = Some gn ∧ wf gn ∧
               generations (S n) g = update gn.
Proof.
  revert g. induction n as [|n IH]; intros g Hg.
  - exists g. split; [reflexivity|]. split; [exact Hg|].
    cbn [generations]. destruct (update g); reflexivity.
  - destruct (IH (next_grid g) (next_grid_wf g)) as (gn & Hrun & Hwf & Hnext).
    exists gn. rewrite (generations_step (S n)), (generations_step n) by exact Hg.
    split; [exact Hrun|]. split; [exact Hwf | exact Hnext].
Qed.

(** C9: [update] is total and deterministic on the grids of the fixed
    dimensions: it returns one grid of the same dimensions, the same
    whatever its local array held before the call, and [n + 1] generations
    are one more call on the result of [n]. *)
Theorem update_total_deterministic (g : list Z) (Hg : wf g) :
  (∃ g', update g = Some g' ∧ wf g') ∧
  (∀ s1 s2, wf s1 → wf s2 → update_on s1 g = update_on s2 g) ∧
  (∀ n, ∃ gn, generations n g = Some gn ∧ wf gn ∧
              generations (S n) g = update gn).
Proof.
  split; [|split].
  - exists (next_grid g). split; [by apply update_next | apply next_grid_wf].
  - intros s1 s2 H1 H2. by rewrite !update_on_next.
  - intros n. by apply generations_wf.
Qed.

Lemma update_total_deterministic_witness :
  wf (block 3 4) ∧
  ((∃ g', update (block 3 4) = Some g' ∧ wf g') ∧
   (∀ s1 s2, wf s1 → wf s2 → update_on s1 (block 3 4) = update_on s2 (block 3 4)) ∧
   (∀ n, ∃ gn, generations n (block 3 4) = Some gn ∧ wf gn ∧
               generations (S n) (block 3 4) = update gn)).
Proof.
  assert (Hg : wf (block 3 4)) by (vm_compute; reflexivity).
  split; [exact Hg|]. exact (update_total_deterministic (block 3 4) Hg).
Defined.

(** ** Cells hold zero or one *)

Lemma setup_cells_in_grid :
  Forall (fun c : Z * Z => 0 <= c.1 < COLS ∧ 0 <= c.2 < ROWS) setup_cells.
Proof. apply (bool_decide_unpack _). vm_compute. exact I. Qed.

Lemma setup_writes_ones g :
  wf g →
  ∃ g', setup g = Some g' ∧ wf g' ∧
        ∀ k, g' !! k = g !! k ∨ g' !! k = Some 1.
Proof.
  intros Hg.
  pose (I := fun (done : list (Z * Z)) (g' : list Z) =>
    wf g' ∧ ∀ k, g' !! k = g !! k ∨ g' !! k = Some 1).
  destruct (for_each_inv I (fun c g => store g (cellindex c.1 c.2) 1) setup_cells)
    with (pre := @nil (Z * Z)) (s := g) as (r & Hrun & Hr); [|by split; auto|by exists r].
  intros done c g' [Hwf Hg'] Hc.
  pose proof (proj1 (Forall_forall _ _) setup_cells_in_grid c Hc) as [Hx Hy].
  rewrite cellindex_wraps by (by apply grid_wraps).
  pose proof (spec_index_bounds c.1 c.2) as Hb. pose proof CELLS_eq as HC.
  rewrite store_insert by (rewrite Hwf; lia).
  eexists. split; [done|]. split; [unfold wf; by rewrite length_insert|].
  intros k. destruct (decide (k = Z.to_nat (spec_index c.1 c.2))) as [->|Hne].
  - right. apply list_lookup_insert_eq. rewrite Hwf. lia.
  - rewrite list_lookup_insert_ne by done. apply Hg'.
Qed.

Lemma cell_after_cases c n :
  cell_after c n = c ∨ cell_after c n = 0 ∨ cell_after c n = 1.
Proof. unfold cell_after. repeat case_decide; auto. Qed.

Lemma update_writes_bits g :
  wf g →
  ∀ k, next_grid g !! k = g !! k ∨ next_grid g !! k = Some 0
       ∨ next_grid g !! k = Some 1.
Proof.
  intros Hg k. destruct (decide (k < CELLS)%nat) as [Hk|Hk].
  - destruct (cell_of_index k Hk) as (x & y & Hx & Hy & ->).
    rewrite next_grid_lookup, lookup_spec_get by done. unfold next_cell.
    rewrite getcell_wraps by auto using grid_wraps.
    rewrite count_interior by auto using interior_grid.
    cbn [mbind option_bind default].
    destruct (cell_after_cases (spec_get g x y)
      (CInt.add (CInt.add (CInt.add (CInt.add (CInt.add (CInt.add (CInt.add
        (spec_get g (x - 1) (y - 1)) (spec_get g x (y - 1)))
        (spec_get g (x + 1) (y - 1))) (spec_get g (x - 1) y))
        (spec_get g (x + 1) y)) (spec_get g (x - 1) (y + 1)))
        (spec_get g x (y + 1))) (spec_get g (x + 1) (y + 1))))
      as [-> | [-> | ->]]; auto.
  - left. rewrite !lookup_ge_None_2; [done|rewrite Hg; lia|rewrite next_grid_wf; lia].
Qed.

Lemma binary_of_lookup (g g' : list Z) :
  binary g →
  (∀ k, g' !! k = g !! k ∨ g' !! k = Some 0 ∨ g' !! k = Some 1) →
  binary g'.
Proof.
  intros Hb H. apply Forall_lookup_2. intros k c Hc.
  destruct (H k) as [Hk | [Hk | Hk]]; rewrite Hk in Hc.
  - by apply (Forall_lookup_1 _ _ _ _ Hb Hc).
  - injection Hc as <-. by left.
  - injection Hc as <-. by right.
Qed.

Lemma dead_grid_binary : binary dead_grid.
Proof. apply Forall_replicate. by left. Qed.

Lemma generations_binary n g :
  wf g → binary g → ∃ gn, generations n g = Some gn ∧ wf gn ∧ binary gn.
Proof.
  revert g. induction n as [|n IH]; intros g Hg Hb.
  { exists g. split; [reflexivity|]. split; [exact Hg | exact Hb]. }
  rewrite generations_step by exact Hg.
  apply IH; [apply next_grid_wf|].
  by apply (binary_of_lookup g), update_writes_bits.
Qed.

(** C10: every cell holds zero or one throughout: [init] leaves the
    all-zero grid, [setup] writes only ones, [update] writes only zeros
    and ones and leaves the other cells as they were, so a grid of zeros
    and ones stays one, and so does every generation [main] reaches. *)
Theorem cells_stay_binary (stack g : list Z)
    (Hs : wf stack) (Hg : wf g) (Hb : binary g) :
  (init stack = Some dead_grid ∧ binary dead_grid) ∧
  (∃ g', setup g = Some g' ∧ wf g' ∧ binary g' ∧
         ∀ k, g' !! k = g !! k ∨ g' !! k = Some 1) ∧
  (∃ g', update g = Some g' ∧ wf g' ∧ binary g' ∧
         ∀ k, g' !! k = g !! k ∨ g' !! k = Some 0 ∨ g' !! k = Some 1) ∧
  (∀ n, ∃ gn, main_run n stack = Some gn ∧ wf gn ∧ binary gn).
Proof.
  split; [|split; [|split]].
  - split; [by apply init_zero | apply dead_grid_binary].
  - destruct (setup_writes_ones g Hg) as (g' & Hrun & Hwf & Hk).
    exists g'. split; [done|]. split; [done|]. split; [|done].
    apply (binary_of_lookup g); [done|]. intros k. destruct (Hk k); auto.
  - exists (next_grid g). split; [by apply update_next|].
    split; [apply next_grid_wf|].
    split; [|by apply update_writes_bits].
    by apply (binary_of_lookup g), update_writes_bits.
  - intros n. unfold main_run. rewrite init_zero by done.
    cbn [mbind option_bind].
    destruct (setup_writes_ones dead_grid) as (g0 & -> & Hwf & Hk);
      [apply length_replicate|].
    cbn [mbind option_bind]. apply generations_binary; [done|].
    apply (binary_of_lookup dead_grid); [apply dead_grid_binary|].
    intros k. destruct (Hk k); auto.
Qed.

Lemma cells_stay_binary_witness :
  wf (replicate CELLS 7) ∧ wf (block 3 4) ∧ binary (block 3 4) ∧
  ((init (replicate CELLS 7) = Some dead_grid ∧ binary dead_grid) ∧
   (∃ g', setup (block 3 4) = Some g' ∧ wf g' ∧ binary g' ∧
          ∀ k, g' !! k = block 3 4 !! k ∨ g' !! k = Some 1) ∧
   (∃ g', update (block 3 4) = Some g' ∧ wf g' ∧ binary g' ∧
          ∀ k, g' !! k = block 3 4 !! k ∨ g' !! k = Some 0 ∨ g' !! k = Some 1) ∧
   (∀ n, ∃ gn, main_run n (replicate CELLS 7) = Some gn ∧ wf gn ∧ binary gn)).
Proof.
  assert (Hs : wf (replicate CELLS 7)) by (vm_compute; reflexivity).
  assert (Hg : wf (block 3 4)) by (vm_compute; reflexivity).
  assert (Hb : binary (block 3 4))
    by (unfold binary; apply (bool_decide_unpack _); vm_compute; exact I).
  split; [exact Hs|]. split; [exact Hg|]. split; [exact Hb|].
  exact (cells_stay_binary (replicate CELLS 7) (block 3 4) Hs Hg Hb).
Defined.

(** * Further properties of the grid store *)

(** X1: from one period below the grid up to the largest coordinates to
    which a period can be added, [cellindex] is the index of the wrapped
    cell, inside the array. *)
Theorem cellindex_wrapped_cell (x y : Z) (Hw : wraps x y) :
  cellindex x y = (y mod ROWS) * COLS + x mod COLS ∧
  0 <= cellindex x y < COLS * ROWS.
Proof.
  rewrite cellindex_wraps by exact Hw. split; [apply spec_index_mod|].
  apply spec_index_bounds.
Qed.

Lemma cellindex_wrapped_cell_witness :
  wraps (-70) 2147483617 ∧
  (cellindex (-70) 2147483617 = (2147483617 mod ROWS) * COLS + (-70) mod COLS ∧
   0 <= cellindex (-70) 2147483617 < COLS * ROWS).
Proof.
  assert (Hw : wraps (-70) 2147483617) by (vm_compute; intuition discriminate).
  split; [exact Hw|]. exact (cellindex_wrapped_cell (-70) 2147483617 Hw).
Defined.

(** X2: on the cells of the grid [cellindex] is the row-major numbering:
    the coordinates are recovered from the index by [mod] and [/], and
    every index of the array is the index of its own coordinates. *)
Theorem cellindex_row_major (x y i : Z)
    (Hx : 0 <= x < COLS) (Hy : 0 <= y < ROWS) (Hi : 0 <= i < COLS * ROWS) :
  cellindex x y = y * COLS + x ∧
  cellindex x y mod COLS = x ∧ cellindex x y / COLS = y ∧
  cellindex (i mod COLS) (i / COLS) = i.
Proof.
  rewrite !cellindex_wraps by (apply grid_wraps; (done || by apply linear_coords)).
  rewrite spec_index_linear by done. rewrite spec_index_grid by done.
  split; [done|]. split; [|split; [|done]].
  - rewrite Z.add_comm, Z_mod_plus_full. apply Z.mod_small. lia.
  - rewrite Z.div_add_l by done. rewrite Z.div_small by lia. lia.
Qed.

Lemma cellindex_row_major_witness :
  0 <= 69 < COLS ∧ 0 <= 29 < ROWS ∧ 0 <= 2099 < COLS * ROWS ∧
  (cellindex 69 29 = 29 * COLS + 69 ∧
   cellindex 69 29 mod COLS = 69 ∧ cellindex 69 29 / COLS = 29 ∧
   cellindex (2099 mod COLS) (2099 / COLS) = 2099).
Proof.
  assert (Hx : 0 <= 69 < COLS) by (unfold COLS; lia).
  assert (Hy : 0 <= 29 < ROWS) by (unfold ROWS; lia).
  assert (Hi : 0 <= 2099 < COLS * ROWS) by (unfold COLS, ROWS; lia).
  split; [exact Hx|]. split; [exact Hy|]. split; [exact Hi|].
  exact (cellindex_row_major 69 29 2099 Hx Hy Hi).
Defined.

(** X3: for a cell of the grid, [cellindex] is periodic upward without
    limit and downward by one period: adding [j] widths and [k] heights
    with [j, k >= -1] gives the index of the cell, as long as the
    coordinates leave room for one more period in an [int]. *)
Theorem cellindex_periodic_from_minus_one (x y j k : Z)
    (Hx : 0 <= x < COLS) (Hy : 0 <= y < ROWS)
    (Hj : -1 <= j) (Hk : -1 <= k)
    (Hxj : x + j * COLS <= CInt.max_signed - COLS)
    (Hyk : y + k * ROWS <= CInt.max_signed - ROWS) :
  cellindex (x + j * COLS) (y + k * ROWS) = cellindex x y.
Proof.
  apply cellindex_periodic; [by apply grid_wraps|].
  unfold wraps, COLS, ROWS in *. lia.
Qed.

Lemma cellindex_periodic_from_minus_one_witness :
  0 <= 3 < COLS ∧ 0 <= 4 < ROWS ∧ -1 <= -1 ∧ -1 <= 1000 ∧
  3 + -1 * COLS <= CInt.max_signed - COLS ∧
  4 + 1000 * ROWS <= CInt.max_signed - ROWS ∧
  cellindex (3 + -1 * COLS) (4 + 1000 * ROWS) = cellindex 3 4.
Proof.
  assert (Hx : 0 <= 3 < COLS) by (unfold COLS; lia).
  assert (Hy : 0 <= 4 < ROWS) by (unfold ROWS; lia).
  assert (Hj : -1 <= -1) by lia.
  assert (Hk : -1 <= 1000) by lia.
  assert (Hxj : 3 + -1 * COLS <= CInt.max_signed - COLS)
    by (unfold COLS, CInt.max_signed; lia).
  assert (Hyk : 4 + 1000 * ROWS <= CInt.max_signed - ROWS)
    by (unfold ROWS, CInt.max_signed; lia).
  repeat (split; [assumption|]).
  exact (cellindex_periodic_from_minus_one 3 4 (-1) 1000 Hx Hy Hj Hk Hxj Hyk).
Defined.

Lemma spec_index_inj a b c d :
  spec_index a b = spec_index c d →
  a mod COLS = c mod COLS ∧ b mod ROWS = d mod ROWS.
Proof.
  rewrite !spec_index_mod. unfold COLS, ROWS.
  pose proof (Z.mod_pos_bound a 70). pose proof (Z.mod_pos_bound c 70).
  pose proof (Z.mod_pos_bound b 30). pose proof (Z.mod_pos_bound d 30). lia.
Qed.

(** X4: a cell written is the cell read back, under any coordinates of
    the same wrapped cell; the other cells and the size of the grid are
    unchanged. *)
Theorem getcell_setcell (g : list Z) (x y v x' y' : Z)
    (Hg : wf g) (Hw : wraps x y) (Hw' : wraps x' y') :
  ∃ g', setcell g x y v = Some g' ∧ wf g' ∧
        getcell g' x' y' =
          if decide (x' mod COLS = x mod COLS ∧ y' mod ROWS = y mod ROWS)
          then Some v else getcell g x' y'.
Proof.
  rewrite setcell_wraps by done. eexists. split; [done|].
  assert (Hg' : wf (<[Z.to_nat (spec_index x y) := v]> g))
    by (unfold wf; by rewrite length_insert).
  split; [done|]. rewrite !getcell_wraps by done.
  unfold spec_get at 1.
  pose proof (spec_index_bounds x y). pose proof (spec_index_bounds x' y').
  pose proof CELLS_eq.
  case_decide as Hsame.
  - rewrite !spec_index_mod. destruct Hsame as [-> ->].
    rewrite <- spec_index_mod.
    rewrite list_lookup_insert_eq by (rewrite Hg; lia). done.
  - rewrite list_lookup_insert_ne; [done|].
    intros Heq. apply Hsame. apply spec_index_inj. lia.
Qed.

Lemma getcell_setcell_witness :
  wf dead_grid ∧ wraps (-1) 30 ∧ wraps 69 0 ∧
  ∃ g', setcell dead_grid (-1) 30 5 = Some g' ∧ wf g' ∧
        getcell g' 69 0 =
          if decide (69 mod COLS = (-1) mod COLS ∧ 0 mod ROWS = 30 mod ROWS)
          then Some 5 else getcell dead_grid 69 0.
Proof.
  assert (Hg : wf dead_grid) by (vm_compute; reflexivity).
  assert (Hw : wraps (-1) 30) by (vm_compute; intuition discriminate).
  assert (Hw' : wraps 69 0) by (vm_compute; intuition discriminate).
  split; [exact Hg|]. split; [exact Hw|]. split; [exact Hw'|].
  exact (getcell_setcell dead_grid (-1) 30 5 69 0 Hg Hw Hw').
Defined.

(** ** Loops over whole arrays *)

Lemma for_each_fails {A S : Type} (J : S → Prop)
    (body : A → S → option S) (l : list A) (a : A) :
  a ∈ l →
  (∀ b s s', J s → body b s = Some s' → J s') →
  (∀ s, J s → body a s = None) →
  ∀ s, J s → for_each body l s = None.
Proof.
  intros Ha Hkeep Hfail. induction l as [|b l IH]; intros s Hs.
  - by apply elem_of_nil in Ha.
  - simpl. destruct (body b s) as [s'|] eqn:Hb; [|done].
    apply elem_of_cons in Ha as [->|Ha].
    + by rewrite Hfail in Hb.
    + apply IH; [done|]. by apply (Hkeep b s).
Qed.

Lemma store_length a i v a' : store a i v = Some a' → length a' = length a.
Proof.
  unfold store. case_decide; [|done]. intros [= <-]. apply length_insert.
Qed.

Lemma store_beyond a i v : Z.of_nat (length a) <= i → store a i v = None.
Proof. intros. unfold store. rewrite decide_False; [done | lia]. Qed.

Lemma load_beyond a i : Z.of_nat (length a) <= i → load a i = None.
Proof.
  intros. unfold load. case_decide; [|done]. apply lookup_ge_None_2. lia.
Qed.

(** A loop that assigns the first [n] cells of a longer array. *)
Lemma fill_prefix (f : Z → option Z) (h : Z → Z) (d : list Z) (n : Z) :
  0 <= n <= Z.of_nat (length d) →
  (∀ i, 0 <= i < n → f i = Some (h i)) →
  for_each (fun i d => v ← f i; store d i v) (seqZ 0 n) d
  = Some ((h <$> seqZ 0 n) ++ drop (Z.to_nat n) d).
Proof.
  intros Hlen Hf.
  pose (I := fun (done : list Z) (d' : list Z) =>
    length d' = length d ∧
    (∀ i, i ∈ done → 0 <= i ∧ d' !! Z.to_nat i = Some (h i)) ∧
    (∀ k, (Z.to_nat n <= k)%nat → d' !! k = d !! k)).
  destruct (for_each_inv I (fun i d => v ← f i; store d i v) (seqZ 0 n))
    with (pre := @nil Z) (s := d) as (r & Hrun & Hlenr & Hr & Hrest).
  - intros done a d' (Hl & Hd & Hk) Ha. apply elem_of_seqZ in Ha.
    rewrite (Hf a) by lia. simpl. rewrite store_insert by lia.
    eexists; split; [done|]. split; [by rewrite length_insert|]. split.
    + intros i [Hi| ->%list_elem_of_singleton]%elem_of_app.
      * destruct (Hd i Hi) as [Hi0 Hv]. split; [done|].
        destruct (decide (i = a)) as [->|Hne].
        -- apply list_lookup_insert_eq. lia.
        -- rewrite list_lookup_insert_ne by lia. done.
      * split; [lia|]. apply list_lookup_insert_eq. lia.
    + intros k Hge. rewrite list_lookup_insert_ne by lia. by apply Hk.
  - split; [done|]. split; [|done]. intros i Hi. by apply elem_of_nil in Hi.
  - rewrite Hrun. f_equal. apply list_eq. intros j.
    assert (Hfl : length (h <$> seqZ 0 n) = Z.to_nat n)
      by (by rewrite length_fmap, length_seqZ).
    destruct (decide (Z.of_nat j < n)) as [Hj|Hj].
    + rewrite lookup_app_l by lia.
      rewrite list_lookup_fmap, lookup_seqZ_lt by done. simpl.
      destruct (Hr (Z.of_nat j)) as [_ Hv]; [apply elem_of_seqZ; lia|].
      by rewrite Nat2Z.id in Hv.
    + rewrite lookup_app_r by lia. rewrite Hfl, lookup_drop.
      rewrite Hrest by lia. f_equal. lia.
Qed.

(** X5: [init] zeroes the first [COLS * ROWS] cells of its array and
    nothing else; on a shorter array it runs past the end. *)
Theorem init_first_cells (g : list Z) :
  init g = if decide (CELLS ≤ length g)%nat
           then Some (replicate CELLS 0 ++ drop CELLS g)
           else None.
Proof.
  unfold init. pose proof CELLS_eq as HC. case_decide as Hlen.
  - change (fun (i : Z) (g : list Z) => store g i 0)
      with (fun (i : Z) (g : list Z) => v ← (fun _ : Z => Some 0) i; store g i v).
    rewrite (fill_prefix _ (fun _ => 0)) by (done || lia). reflexivity.
  - apply (for_each_fails (fun d => length d = length g) _ _ (Z.of_nat (length g))).
    + apply elem_of_seqZ. lia.
    + intros b s s' Hs Hb. apply store_length in Hb. congruence.
    + intros s Hs. apply store_beyond. lia.
    + done.
Qed.

(** X6: [copygrid] copies the first [COLS * ROWS] cells of the source
    over those of the destination and leaves the rest of the destination;
    when either array is shorter it runs past an end. *)
Theorem copygrid_first_cells (source dest : list Z) :
  copygrid source dest =
    if decide ((CELLS ≤ length source)%nat ∧ (CELLS ≤ length dest)%nat)
    then Some (take CELLS source ++ drop CELLS dest)
    else None.
Proof.
  unfold copygrid. pose proof CELLS_eq as HC.
  change (ROWS * COLS) with (COLS * ROWS). case_decide as Hlen.
  - destruct Hlen as [Hs Hd].
    rewrite (fill_prefix _ (fun i => default 0 (source !! Z.to_nat i))).
    + f_equal. f_equal. apply list_eq. intros j.
      rewrite list_lookup_fmap.
      destruct (decide (Z.of_nat j < COLS * ROWS)) as [Hj|Hj].
      * rewrite lookup_seqZ_lt by done. rewrite Z.add_0_l.
        cbn [fmap option_fmap option_map]. rewrite Nat2Z.id.
        rewrite lookup_take_lt by lia.
        destruct (lookup_lt_is_Some_2 source j) as [c ->]; [lia|done].
      * rewrite lookup_seqZ_ge by lia. simpl. symmetry.
        apply lookup_ge_None_2. rewrite length_take. lia.
    + lia.
    + intros i Hi. rewrite load_lookup by lia.
      destruct (lookup_lt_is_Some_2 source (Z.to_nat i)) as [c ->]; [lia|done].
  - apply (for_each_fails (fun d => length d = length dest) _ _
             (Z.of_nat (length source `min` length dest))).
    + apply elem_of_seqZ. lia.
    + intros b s s' Hs Hb.
      destruct (load source b); simpl in Hb; [|done].
      apply store_length in Hb. congruence.
    + intros s Hs.
      destruct (decide (length source ≤ length dest)%nat).
      * rewrite load_beyond; [done|lia].
      * destruct (load source _); simpl; [|done]. apply store_beyond. lia.
    + done.
Qed.

(** * Further properties of the generation engine *)

(** X7: wherever all eight neighbours lie in the range in which
    [cellindex] wraps, on a grid of zeros and ones the count is the sum of
    the eight wrapped neighbours, between 0 and 8. *)
Theorem count_alive_neighbors_wrapped (g : list Z) (x y : Z)
    (Hg : wf g) (Hb : binary g) (Hi : interior x y) :
  count_alive_neighbors g x y = Some (spec_count g x y) ∧
  0 <= spec_count g x y <= 8.
Proof. split; [by apply count_binary | by apply spec_count_bounds]. Qed.

Lemma count_alive_neighbors_wrapped_witness :
  wf (block 0 0) ∧ binary (block 0 0) ∧ interior (-69) 2147483616 ∧
  (count_alive_neighbors (block 0 0) (-69) 2147483616
     = Some (spec_count (block 0 0) (-69) 2147483616) ∧
   0 <= spec_count (block 0 0) (-69) 2147483616 <= 8).
Proof.
  assert (Hg : wf (block 0 0)) by (vm_compute; reflexivity).
  assert (Hb : binary (block 0 0))
    by (unfold binary; apply (bool_decide_unpack _); vm_compute; exact I).
  assert (Hi : interior (-69) 2147483616) by (vm_compute; intuition discriminate).
  split; [exact Hg|]. split; [exact Hb|]. split; [exact Hi|].
  exact (count_alive_neighbors_wrapped (block 0 0) (-69) 2147483616 Hg Hb Hi).
Defined.

Lemma count_neighbor_sum g x y :
  wf g → interior x y →
  count_alive_neighbors g x y = Some (neighbor_sum g x y).
Proof. apply count_interior. Qed.

Lemma mod_step_differs x d n :
  2 <= n → d = 1 ∨ d = -1 → (x + d) mod n ≠ x mod n.
Proof.
  intros Hn Hd Heq.
  pose proof (Z.div_mod (x + d) n ltac:(lia)) as H1.
  pose proof (Z.div_mod x n ltac:(lia)) as H2.
  rewrite Heq in H1.
  set (q := (x + d) / n - x / n).
  assert (d = n * q) as Hdn by (unfold q; lia).
  assert (q <= -1 ∨ q = 0 ∨ 1 <= q) as [Hq | [Hq | Hq]] by lia;
    destruct Hd as [-> | ->]; nia.
Qed.

Lemma spec_get_insert_other g x y v a b :
  (a mod COLS ≠ x mod COLS ∨ b mod ROWS ≠ y mod ROWS) →
  spec_get (<[Z.to_nat (spec_index x y) := v]> g) a b = spec_get g a b.
Proof.
  intros Hne. unfold spec_get. rewrite list_lookup_insert_ne; [done|].
  pose proof (spec_index_bounds x y). pose proof (spec_index_bounds a b).
  intros Heq. assert (spec_index a b = spec_index x y) as Hidx by lia.
  apply spec_index_inj in Hidx. destruct Hne; tauto.
Qed.

(** X8: the count does not depend on the cell itself: after any value is
    written to the cell, the count is what it was. *)
Theorem count_ignores_own_cell (g : list Z) (x y v : Z)
    (Hg : wf g) (Hi : interior x y) :
  ∃ g', setcell g x y v = Some g' ∧
        count_alive_neighbors g' x y = count_alive_neighbors g x y.
Proof.
  assert (Hw : wraps x y) by (unfold wraps, interior in *; lia).
  rewrite setcell_wraps by done. eexists. split; [done|].
  rewrite !count_neighbor_sum
    by (done || unfold wf; by rewrite length_insert).
  f_equal. unfold neighbor_sum.
  assert (Hc : ∀ d, d = 1 ∨ d = -1 → (x + d) mod COLS ≠ x mod COLS)
    by (intros; by apply mod_step_differs).
  assert (Hr : ∀ d, d = 1 ∨ d = -1 → (y + d) mod ROWS ≠ y mod ROWS)
    by (intros; by apply mod_step_differs).
  pose proof (Hc 1 ltac:(auto)). pose proof (Hc (-1) ltac:(auto)).
  pose proof (Hr 1 ltac:(auto)). pose proof (Hr (-1) ltac:(auto)).
  change (x - 1) with (x + -1). change (y - 1) with (y + -1).
  by rewrite !spec_get_insert_other by auto.
Qed.

Lemma count_ignores_own_cell_witness :
  wf (block 0 0) ∧ interior 0 0 ∧
  ∃ g', setcell (block 0 0) 0 0 0 = Some g' ∧
        count_alive_neighbors g' 0 0 = count_alive_neighbors (block 0 0) 0 0.
Proof.
  assert (Hg : wf (block 0 0)) by (vm_compute; reflexivity).
  assert (Hi : interior 0 0) by (vm_compute; intuition discriminate).
  split; [exact Hg|]. split; [exact Hi|].
  exact (count_ignores_own_cell (block 0 0) 0 0 0 Hg Hi).
Defined.

Lemma next_cell_at g x y :
  wf g → interior x y →
  next_cell g x y = cell_after (spec_get g x y) (neighbor_sum g x y).
Proof.
  intros Hg Hi. unfold next_cell.
  rewrite getcell_wraps by (done || unfold wraps, interior in *; lia).
  by rewrite count_neighbor_sum by done.
Qed.

(** X9: on any grid of [int] cells, [update] treats every nonzero cell
    as alive: such a cell becomes 0 with fewer than two or more than three
    live neighbours and otherwise keeps its value, whatever it is; a zero
    cell becomes 1 with exactly three and otherwise stays 0. *)
Theorem update_cell_value (g : list Z) (x y : Z)
    (Hg : wf g) (Hx : 0 <= x < COLS) (Hy : 0 <= y < ROWS) :
  ∃ g' c n,
    update g = Some g' ∧
    getcell g x y = Some c ∧
    count_alive_neighbors g x y = Some n ∧
    getcell g' x y =
      Some (if decide (c ≠ 0)
            then (if decide (n < 2 ∨ n > 3) then 0 else c)
            else (if decide (n = 3) then 1 else 0)).
Proof.
  exists (next_grid g), (spec_get g x y), (neighbor_sum g x y).
  split; [by apply update_next|].
  split; [by apply getcell_wraps, grid_wraps|].
  split; [by apply count_neighbor_sum, interior_grid|].
  rewrite getcell_wraps by (apply next_grid_wf || by apply grid_wraps).
  f_equal. unfold spec_get at 1. rewrite next_grid_lookup by done.
  cbn [default]. rewrite next_cell_at by (done || by apply interior_grid).
  unfold cell_after. repeat case_decide; (done || lia).
Qed.

Lemma update_cell_value_witness :
  wf (<[0%nat := 5]> (block 0 0)) ∧ 0 <= 0 < COLS ∧ 0 <= 0 < ROWS ∧
  ∃ g' c n,
    update (<[0%nat := 5]> (block 0 0)) = Some g' ∧
    getcell (<[0%nat := 5]> (block 0 0)) 0 0 = Some c ∧
    count_alive_neighbors (<[0%nat := 5]> (block 0 0)) 0 0 = Some n ∧
    getcell g' 0 0 =
      Some (if decide (c ≠ 0)
            then (if decide (n < 2 ∨ n > 3) then 0 else c)
            else (if decide (n = 3) then 1 else 0)).
Proof.
  assert (Hg : wf (<[0%nat := 5]> (block 0 0))) by (vm_compute; reflexivity).
  assert (Hx : 0 <= 0 < COLS) by (unfold COLS; lia).
  assert (Hy : 0 <= 0 < ROWS) by (unfold ROWS; lia).
  split; [exact Hg|]. split; [exact Hx|]. split; [exact Hy|].
  exact (update_cell_value (<[0%nat := 5]> (block 0 0)) 0 0 Hg Hx Hy).
Defined.

(** ** Translations of the torus *)

Lemma spec_index_congr a b c d :
  a mod COLS = c mod COLS → b mod ROWS = d mod ROWS →
  spec_index a b = spec_index c d.
Proof. intros Ha Hb. rewrite !spec_index_mod. by rewrite Ha, Hb. Qed.

Lemma spec_get_congr g a b c d :
  a mod COLS = c mod COLS → b mod ROWS = d mod ROWS →
  spec_get g a b = spec_get g c d.
Proof. intros Ha Hb. unfold spec_get. by rewrite (spec_index_congr a b c d). Qed.

Lemma spec_index_coords x y :
  spec_index x y mod COLS = x mod COLS ∧ spec_index x y / COLS = y mod ROWS.
Proof.
  rewrite spec_index_mod.
  pose proof (Z.mod_pos_bound x COLS eq_refl).
  pose proof (Z.mod_pos_bound y ROWS eq_refl). split.
  - rewrite Z.add_comm, Z_mod_plus_full. apply Z.mod_small. lia.
  - rewrite Z.div_add_l by done. rewrite Z.div_small by lia. lia.
Qed.

Lemma spec_get_fmap (F : Z → Z) x y :
  spec_get (F <$> seqZ 0 (COLS * ROWS)) x y = F (spec_index x y).
Proof.
  unfold spec_get. pose proof (spec_index_bounds x y).
  rewrite list_lookup_fmap, lookup_seqZ_lt by lia.
  by rewrite Z.add_0_l, Z2Nat.id by lia.
Qed.

Lemma translate_wf ox oy g : wf (translate ox oy g).
Proof. unfold wf, translate. by rewrite length_fmap, length_seqZ. Qed.

Lemma spec_get_translate ox oy g x y :
  spec_get (translate ox oy g) x y = spec_get g (x - ox) (y - oy).
Proof.
  unfold translate. rewrite spec_get_fmap.
  destruct (spec_index_coords x y) as [-> ->].
  apply spec_get_congr; apply Zminus_mod_idemp_l.
Qed.

Lemma spec_get_next_grid g x y :
  spec_get (next_grid g) x y = next_cell g (x mod COLS) (y mod ROWS).
Proof.
  unfold next_grid. rewrite spec_get_fmap.
  by destruct (spec_index_coords x y) as [-> ->].
Qed.

Lemma mod_add_congr x x' d n :
  x mod n = x' mod n → (x + d) mod n = (x' + d) mod n.
Proof.
  intros H. by rewrite <- (Zplus_mod_idemp_l x), H, Zplus_mod_idemp_l.
Qed.

Lemma neighbor_sum_congr g x y x' y' :
  x mod COLS = x' mod COLS → y mod ROWS = y' mod ROWS →
  neighbor_sum g x y = neighbor_sum g x' y'.
Proof.
  intros Hx Hy. unfold neighbor_sum.
  change (x - 1) with (x + -1). change (y - 1) with (y + -1).
  change (x' - 1) with (x' + -1). change (y' - 1) with (y' + -1).
  rewrite (spec_get_congr g (x + -1) (y + -1) (x' + -1) (y' + -1)),
    (spec_get_congr g x (y + -1) x' (y' + -1)),
    (spec_get_congr g (x + 1) (y + -1) (x' + 1) (y' + -1)),
    (spec_get_congr g (x + -1) y (x' + -1) y'),
    (spec_get_congr g (x + 1) y (x' + 1) y'),
    (spec_get_congr g (x + -1) (y + 1) (x' + -1) (y' + 1)),
    (spec_get_congr g x (y + 1) x' (y' + 1)),
    (spec_get_congr g (x + 1) (y + 1) (x' + 1) (y' + 1))
    by (done || by apply mod_add_congr).
  done.
Qed.

Lemma neighbor_sum_translate ox oy g x y :
  neighbor_sum (translate ox oy g) x y = neighbor_sum g (x - ox) (y - oy).
Proof.
  unfold neighbor_sum. rewrite !spec_get_translate.
  replace (x - 1 - ox) with (x - ox - 1) by lia.
  replace (x + 1 - ox) with (x - ox + 1) by lia.
  replace (y - 1 - oy) with (y - oy - 1) by lia.
  replace (y + 1 - oy) with (y - oy + 1) by lia.
  done.
Qed.

Lemma next_grid_translate ox oy g :
  wf g → next_grid (translate ox oy g) = translate ox oy (next_grid g).
Proof.
  intros Hg. unfold next_grid at 1. unfold translate at 2.
  apply Forall_fmap_ext_1, Forall_seqZ. intros i Hi.
  destruct (linear_coords i) as [Hx Hy]; [lia|].
  rewrite next_cell_at by (apply translate_wf || by apply interior_grid).
  rewrite spec_get_translate, neighbor_sum_translate, spec_get_next_grid.
  rewrite next_cell_at
    by (done || apply interior_grid; by apply Z.mod_pos_bound).
  set (x := i mod COLS - ox). set (y := i / COLS - oy).
  rewrite (spec_get_congr g (x mod COLS) (y mod ROWS) x y)
    by (by rewrite Z.mod_mod).
  rewrite (neighbor_sum_congr g (x mod COLS) (y mod ROWS) x y)
    by (by rewrite Z.mod_mod).
  reflexivity.
Qed.

Lemma update_translate_next ox oy g :
  wf g → update (translate ox oy g) = Some (translate ox oy (next_grid g)).
Proof.
  intros Hg. rewrite update_next by apply translate_wf.
  by rewrite next_grid_translate.
Qed.

(** X10: [update] commutes with the translations of the torus: moving a
    grid around the torus and updating it is updating it and moving the
    result. *)
Theorem update_translate (g : list Z) (ox oy : Z) (Hg : wf g) :
  update (translate ox oy g) = translate ox oy <$> update g.
Proof.
  rewrite update_translate_next by exact Hg.
  rewrite (update_next g) by exact Hg. reflexivity.
Qed.

Lemma update_translate_witness :
  wf (blinker Horizontal 0 0) ∧
  update (translate 69 (-1) (blinker Horizontal 0 0))
  = translate 69 (-1) <$> update (blinker Horizontal 0 0).
Proof.
  assert (Hg : wf (blinker Horizontal 0 0)) by (vm_compute; reflexivity).
  split; [exact Hg|]. exact (update_translate (blinker Horizontal 0 0) 69 (-1) Hg).
Defined.

Lemma translate_translate a b c d g :
  translate a b (translate c d g) = translate (a + c) (b + d) g.
Proof.
  unfold translate at 1 3. apply Forall_fmap_ext_1, Forall_seqZ. intros i _.
  rewrite spec_get_translate.
  by rewrite <- !Z.sub_add_distr.
Qed.

Lemma translate_congr a b c d g :
  a mod COLS = c mod COLS → b mod ROWS = d mod ROWS →
  translate a b g = translate c d g.
Proof.
  intros Ha Hb. unfold translate. apply Forall_fmap_ext_1, Forall_seqZ.
  intros i _. apply spec_get_congr.
  - rewrite <- Zminus_mod_idemp_r, Ha. apply Zminus_mod_idemp_r.
  - rewrite <- Zminus_mod_idemp_r, Hb. apply Zminus_mod_idemp_r.
Qed.

Lemma translate_zero g : wf g → translate 0 0 g = g.
Proof.
  intros Hg. apply list_eq. intros k.
  destruct (decide (k < CELLS)%nat) as [Hk|Hk].
  - destruct (cell_of_index k Hk) as (x & y & Hx & Hy & ->).
    rewrite !lookup_spec_get by (done || apply translate_wf).
    rewrite spec_get_translate. by rewrite !Z.sub_0_r.
  - rewrite !lookup_ge_None_2; [done|rewrite Hg; lia|rewrite translate_wf; lia].
Qed.

Lemma generations_translate n ox oy g :
  wf g →
  generations n (translate ox oy g) = translate ox oy <$> generations n g.
Proof.
  revert g. induction n as [|n IH]; intros g Hg; [reflexivity|].
  rewrite (generations_step n g) by exact Hg.
  rewrite (generations_step n (translate ox oy g)) by apply translate_wf.
  rewrite next_grid_translate by exact Hg. apply IH, next_grid_wf.
Qed.

Lemma generations_add m n g :
  generations (m + n) g = generations m g ≫= generations n.
Proof.
  revert g. induction m as [|m IH]; intros g; [reflexivity|].
  cbn [Nat.add generations]. destruct (update g) as [g'|]; [|reflexivity].
  cbn [mbind option_bind]. apply IH.
Qed.

(** * Properties of the output *)

Lemma print_loop {A : Type} (f : A → option Z) (h : A → Z)
    (tok : Z → list byte) (l : list A) (out : list byte) :
  (∀ a, a ∈ l → f a = Some (h a)) →
  for_each (fun a out => c ← f a; Some (out ++ tok c)) l out
  = Some (out ++ mjoin ((fun a => tok (h a)) <$> l)).
Proof.
  revert out. induction l as [|a l IH]; intros out Hf.
  - simpl. by rewrite app_nil_r.
  - cbn [for_each]. rewrite (Hf a) by left. cbn [mbind option_bind].
    rewrite IH by (intros b Hb; apply Hf; by right).
    cbn [fmap list_fmap mjoin list_join]. by rewrite <- app_assoc.
Qed.

Lemma print_rows {A : Type} (inner : A → list byte → option (list byte))
    (row : A → list byte) (nl : list byte) (l : list A) (out : list byte) :
  (∀ a o, a ∈ l → inner a o = Some (o ++ row a)) →
  for_each (fun a out => out ← inner a out; Some (out ++ nl)) l out
  = Some (out ++ mjoin ((fun a => row a ++ nl) <$> l)).
Proof.
  revert out. induction l as [|a l IH]; intros out Hf.
  - simpl. by rewrite app_nil_r.
  - cbn [for_each]. rewrite (Hf a) by left. cbn [mbind option_bind].
    rewrite IH by (intros b o Hb; apply Hf; by right).
    cbn [fmap list_fmap mjoin list_join]. by rewrite <- !app_assoc.
Qed.

Lemma bind_Some {A B : Type} (a : A) (f : A → option B) : Some a ≫= f = f a.
Proof. reflexivity. Qed.

Lemma getcell_load g x y : getcell g x y = load g (cellindex x y).
Proof. reflexivity. Qed.

Lemma draw_frame g out :
  wf g → draw g out = Some (clear out ++ frame_of glyph g).
Proof.
  intros Hg. unfold draw, DEBUG, frame_of.
  apply (print_rows _ (fun y => mjoin ((fun x => glyph (spec_get g x y))
                                         <$> seqZ 0 COLS))).
  intros y o Hy%elem_of_seqZ.
  apply (print_loop (fun x => load g (cellindex x y))
           (fun x => spec_get g x y) glyph).
  intros x Hx%elem_of_seqZ. rewrite <- getcell_load.
  apply getcell_wraps; [exact Hg|]. apply grid_wraps; lia.
Qed.

Lemma printgrid_frame g out :
  wf g →
  printgrid g out = Some (out ++ frame_of (fun c => print_int c ++ [x20]) g).
Proof.
  intros Hg. unfold printgrid, frame_of.
  apply (print_rows _ (fun y => mjoin ((fun x => print_int (spec_get g x y) ++ [x20])
                                         <$> seqZ 0 COLS))).
  intros y o Hy%elem_of_seqZ.
  apply (print_loop (fun x => getcell g x y)
           (fun x => spec_get g x y) (fun c => print_int c ++ [x20])).
  intros x Hx%elem_of_seqZ. apply (getcell_wraps g x y Hg).
  apply grid_wraps; lia.
Qed.

(** Tokens none of which is a proper prefix of another can be read back
    from their concatenation. *)
Lemma tokens_inj {A : Type} (f f' : A → list byte) (l : list A)
    (r r' : list byte) :
  (∀ a s s', a ∈ l → f a ++ s = f' a ++ s' → f a = f' a ∧ s = s') →
  mjoin (f <$> l) ++ r = mjoin (f' <$> l) ++ r' →
  (∀ a, a ∈ l → f a = f' a) ∧ r = r'.
Proof.
  induction l as [|a l IH]; intros Hpre Heq.
  - split; [|done]. intros a Ha. by apply elem_of_nil in Ha.
  - cbn [fmap list_fmap mjoin list_join] in Heq. rewrite <- !app_assoc in Heq.
    apply Hpre in Heq as [Ha Heq]; [|by left].
    apply IH in Heq as [Hl Hr]; [|intros b s s' Hb; apply Hpre; by right].
    split; [|done]. intros b [->|Hb]%elem_of_cons; auto.
Qed.

Lemma frame_inj (cell : Z → list byte) (g g' : list Z) :
  (∀ x y s s', 0 <= x < COLS → 0 <= y < ROWS →
     cell (spec_get g x y) ++ s = cell (spec_get g' x y) ++ s' →
     cell (spec_get g x y) = cell (spec_get g' x y) ∧ s = s') →
  frame_of cell g = frame_of cell g' →
  ∀ x y, 0 <= x < COLS → 0 <= y < ROWS →
    cell (spec_get g x y) = cell (spec_get g' x y).
Proof.
  intros Hpre Heq x y Hx Hy. unfold frame_of in Heq.
  assert (Heq' :
    mjoin ((fun y => mjoin ((fun x => cell (spec_get g x y)) <$> seqZ 0 COLS)
                     ++ [x0a]) <$> seqZ 0 ROWS) ++ []
    = mjoin ((fun y => mjoin ((fun x => cell (spec_get g' x y)) <$> seqZ 0 COLS)
                       ++ [x0a]) <$> seqZ 0 ROWS) ++ [])
    by (by rewrite !app_nil_r).
  apply tokens_inj in Heq' as [Hrows _].
  - specialize (Hrows y ltac:(apply elem_of_seqZ; lia)).
    apply tokens_inj in Hrows as [Hcells _].
    + apply Hcells, elem_of_seqZ. lia.
    + intros a s s' Ha%elem_of_seqZ. apply Hpre; lia.
  - intros b s s' Hb%elem_of_seqZ Hrow. rewrite <- !app_assoc in Hrow.
    apply tokens_inj in Hrow as [Hcells Htail].
    + split; [|exact (app_inv_head [x0a] _ _ Htail)].
      apply (f_equal (fun r => mjoin r ++ [x0a])).
      apply Forall_fmap_ext_1, Forall_seqZ. intros a Ha.
      apply Hcells, elem_of_seqZ. lia.
    + intros a t t' Ha%elem_of_seqZ. apply Hpre; lia.
Qed.

Lemma frame_ext (cell : Z → list byte) (g g' : list Z) :
  (∀ x y, 0 <= x < COLS → 0 <= y < ROWS →
     cell (spec_get g x y) = cell (spec_get g' x y)) →
  frame_of cell g = frame_of cell g'.
Proof.
  intros H. unfold frame_of. apply (f_equal mjoin).
  apply Forall_fmap_ext_1, Forall_seqZ. intros y Hy.
  apply (f_equal (fun r => mjoin r ++ [x0a])).
  apply Forall_fmap_ext_1, Forall_seqZ. intros x Hx. apply H; lia.
Qed.

Lemma glyph_prefix c c' s s' :
  glyph c ++ s = glyph c' ++ s' → glyph c = glyph c' ∧ s = s'.
Proof.
  unfold glyph, ALIVE, DEAD. repeat case_decide; simpl; intros Heq;
    by simplify_eq.
Qed.

Lemma glyph_eq c c' : glyph c = glyph c' ↔ (c = 1 ↔ c' = 1).
Proof.
  unfold glyph, ALIVE, DEAD. repeat case_decide; simpl; split;
    (done || tauto || intros; by simplify_eq).
Qed.

Lemma grids_pointwise (P : Z → Z → Prop) (g g' : list Z) :
  wf g → wf g' →
  (∀ x y, 0 <= x < COLS → 0 <= y < ROWS →
     P (spec_get g x y) (spec_get g' x y)) ↔
  (∀ k c c', g !! k = Some c → g' !! k = Some c' → P c c').
Proof.
  intros Hg Hg'. split.
  - intros H k c c' Hc Hc'.
    assert (Hk : (k < CELLS)%nat) by (rewrite <- Hg; by eapply lookup_lt_Some).
    destruct (cell_of_index k Hk) as (x & y & Hx & Hy & ->).
    rewrite lookup_spec_get in Hc, Hc' by done.
    injection Hc as <-. injection Hc' as <-. by apply H.
  - intros H x y Hx Hy.
    apply (H (Z.to_nat (spec_index x y))); by apply lookup_spec_get.
Qed.

(** X11: on a grid of [COLS * ROWS] cells [draw] never reads outside the
    array, and the frames it prints for two grids are the same exactly
    when the grids have the same cells equal to 1: a frame shows which
    cells hold 1 and nothing else. *)
Theorem draw_shows_ones (g g' : list Z) (out : list byte)
    (Hg : wf g) (Hg' : wf g') :
  is_Some (draw g out) ∧
  (draw g out = draw g' out ↔
   ∀ k c c', g !! k = Some c → g' !! k = Some c' → (c = 1 ↔ c' = 1)).
Proof.
  rewrite !draw_frame by done. split; [by eexists|].
  rewrite <- (grids_pointwise (fun c c' => c = 1 ↔ c' = 1)) by done.
  split.
  - intros Heq x y Hx Hy. apply glyph_eq.
    apply (inj Some), app_inv_head in Heq.
    apply (frame_inj glyph g g'); [|exact Heq|exact Hx|exact Hy].
    intros ? ? s s' _ _. apply glyph_prefix.
  - intros H. apply (f_equal (fun f => Some (clear out ++ f))), frame_ext.
    intros x y Hx Hy. by apply glyph_eq, H.
Qed.

Lemma draw_shows_ones_witness :
  wf (block 0 0) ∧ wf (<[0%nat := 5]> (block 0 0)) ∧
  (is_Some (draw (block 0 0) []) ∧
   (draw (block 0 0) [] = draw (<[0%nat := 5]> (block 0 0)) [] ↔
    ∀ k c c', block 0 0 !! k = Some c →
              <[0%nat := 5]> (block 0 0) !! k = Some c' → (c = 1 ↔ c' = 1))).
Proof.
  assert (Hg : wf (block 0 0)) by (vm_compute; reflexivity).
  assert (Hg' : wf (<[0%nat := 5]> (block 0 0))) by (vm_compute; reflexivity).
  split; [exact Hg|]. split; [exact Hg'|].
  exact (draw_shows_ones (block 0 0) (<[0%nat := 5]> (block 0 0)) [] Hg Hg').
Defined.

Lemma digit_prefix c c' s s' :
  c = 0 ∨ c = 1 → c' = 0 ∨ c' = 1 →
  (print_int c ++ [x20]) ++ s = (print_int c' ++ [x20]) ++ s' →
  c = c' ∧ s = s'.
Proof.
  intros [-> | ->] [-> | ->]; vm_compute; intros Heq; by simplify_eq.
Qed.

(** X12: on a grid of zeros and ones [printgrid] never reads outside the
    array, and what it prints determines the grid. *)
Theorem printgrid_shows_grid (g g' : list Z) (out : list byte)
    (Hg : wf g) (Hb : binary g) (Hg' : wf g') (Hb' : binary g') :
  is_Some (printgrid g out) ∧
  (printgrid g out = printgrid g' out → g = g').
Proof.
  rewrite !printgrid_frame by done. split; [by eexists|].
  intros Heq. apply (inj Some), app_inv_head in Heq.
  assert (Hcells : ∀ x y, 0 <= x < COLS → 0 <= y < ROWS →
                          spec_get g x y = spec_get g' x y).
  { intros x y Hx Hy.
    pose proof (frame_inj (fun c => print_int c ++ [x20]) g g') as Hinj.
    cbv beta in Hinj.
    assert (Htok : print_int (spec_get g x y) ++ [x20]
                   = print_int (spec_get g' x y) ++ [x20]).
    { apply Hinj; [|exact Heq|exact Hx|exact Hy].
      intros a b s s' _ _ Hs.
      apply digit_prefix in Hs as [-> ->]; [done|by apply binary_spec_get..]. }
    assert (Htok' : (print_int (spec_get g x y) ++ [x20]) ++ []
                    = (print_int (spec_get g' x y) ++ [x20]) ++ [])
      by (by rewrite !app_nil_r).
    by apply digit_prefix in Htok' as [? _]; [|by apply binary_spec_get..]. }
  apply list_eq. intros k.
  destruct (decide (k < CELLS)%nat) as [Hk|Hk].
  - destruct (cell_of_index k Hk) as (x & y & Hx & Hy & ->).
    rewrite !lookup_spec_get by done. by rewrite Hcells.
  - rewrite !lookup_ge_None_2; [done|rewrite Hg'; lia|rewrite Hg; lia].
Qed.

Lemma printgrid_shows_grid_witness :
  wf (block 0 0) ∧ binary (block 0 0) ∧
  wf (blinker Vertical 0 0) ∧ binary (blinker Vertical 0 0) ∧
  (is_Some (printgrid (block 0 0) []) ∧
   (printgrid (block 0 0) [] = printgrid (blinker Vertical 0 0) []
    → block 0 0 = blinker Vertical 0 0)).
Proof.
  assert (Hg : wf (block 0 0)) by (vm_compute; reflexivity).
  assert (Hb : binary (block 0 0))
    by (unfold binary; apply (bool_decide_unpack _); vm_compute; exact I).
  assert (Hg' : wf (blinker Vertical 0 0)) by (vm_compute; reflexivity).
  assert (Hb' : binary (blinker Vertical 0 0))
    by (unfold binary; apply (bool_decide_unpack _); vm_compute; exact I).
  split; [exact Hg|]. split; [exact Hb|]. split; [exact Hg'|]. split; [exact Hb'|].
  exact (printgrid_shows_grid (block 0 0) (blinker Vertical 0 0) [] Hg Hb Hg' Hb').
Defined.

(** * Properties of the whole program *)

Lemma setup_seed : setup dead_grid = Some seed.
Proof. vm_compute. reflexivity. Qed.

Lemma seed_wf : wf seed.
Proof. apply pattern_wf. Qed.

Lemma auto_loop_grid n g out :
  wf g →
  ∃ out', auto_loop n g out = Some (default [] (generations n g), out') ∧
          is_Some (generations n g).
Proof.
  revert g out. induction n as [|n IH]; intros g out Hg.
  - exists out. split; [reflexivity | by eexists].
  - cbn [auto_loop]. rewrite update_next, bind_Some by exact Hg.
    rewrite draw_frame, bind_Some by apply next_grid_wf.
    rewrite generations_step by exact Hg. apply IH, next_grid_wf.
Qed.

(** X13: stepping by hand is ticking: after the newlines at the head of
    its input the manual loop has the grid and the output of as many
    iterations of the automatic loop, and it reads no further than the
    first other character. *)
Theorem manual_loop_ticks (stdin : list Z) (g : list Z) (out : list byte) :
  manual_loop stdin g out = auto_loop (leading_newlines stdin) g out.
Proof.
  revert g out. induction stdin as [|ch rest IH]; intros g out; [reflexivity|].
  cbn [manual_loop leading_newlines]. case_decide; [|reflexivity].
  cbn [auto_loop]. destruct (update g) as [g'|]; [|reflexivity].
  rewrite !bind_Some. destruct (draw g' out) as [out'|]; [|reflexivity].
  rewrite !bind_Some. apply IH.
Qed.

Lemma main_seed ticks stdin stack :
  wf stack →
  main ticks stdin stack
  = auto_loop ticks seed (clear [] ++ frame_of glyph seed).
Proof.
  intros Hs. unfold main.
  rewrite init_zero, bind_Some by exact Hs.
  rewrite setup_seed, bind_Some.
  rewrite draw_frame, bind_Some by apply seed_wf. reflexivity.
Qed.

(** X14: [main] never reads or writes outside its array, and neither its
    grid nor its output depends on what the array held at the start. *)
Theorem main_ignores_stack (ticks : nat) (stdin : list Z) (s1 s2 : list Z)
    (H1 : wf s1) (H2 : wf s2) :
  is_Some (main ticks stdin s1) ∧
  main ticks stdin s1 = main ticks stdin s2.
Proof.
  rewrite !main_seed by assumption. split; [|reflexivity].
  destruct (auto_loop_grid ticks seed (clear [] ++ frame_of glyph seed) seed_wf)
    as (out' & -> & _).
  by eexists.
Qed.

Lemma main_ignores_stack_witness :
  wf (replicate CELLS 7) ∧ wf dead_grid ∧
  (is_Some (main 3 [] (replicate CELLS 7)) ∧
   main 3 [] (replicate CELLS 7) = main 3 [] dead_grid).
Proof.
  assert (H1 : wf (replicate CELLS 7)) by (vm_compute; reflexivity).
  assert (H2 : wf dead_grid) by (vm_compute; reflexivity).
  split; [exact H1|]. split; [exact H2|].
  exact (main_ignores_stack 3 [] (replicate CELLS 7) dead_grid H1 H2).
Defined.

Lemma seed_glide : generations 4 seed = Some (translate (-1) 0 seed).
Proof.
  rewrite generations_step by apply seed_wf.
  rewrite !generations_step by apply next_grid_wf.
  cbn [generations]. apply (f_equal Some). vm_compute. reflexivity.
Qed.

Lemma seed_glides (k : nat) :
  generations (4 * k) seed = Some (translate (- Z.of_nat k) 0 seed).
Proof.
  induction k as [|k IH].
  - cbn [Nat.mul generations]. by rewrite translate_zero by apply seed_wf.
  - replace (4 * S k)%nat with (4 * k + 4)%nat by lia.
    rewrite generations_add, IH. cbn [mbind option_bind].
    rewrite generations_translate by apply seed_wf.
    rewrite seed_glide. cbn [fmap option_fmap option_map].
    rewrite translate_translate.
    replace (- Z.of_nat k + -1) with (- Z.of_nat (S k)) by lia.
    reflexivity.
Qed.

Lemma seed_returns : generations (4 * 70) seed = Some seed.
Proof.
  rewrite seed_glides.
  rewrite (translate_congr (- Z.of_nat 70) 0 0 0) by reflexivity.
  by rewrite translate_zero by apply seed_wf.
Qed.

(** X15: the pattern [setup] installs is a spaceship: every four
    generations of [main] it is one more column to the left, unchanged. *)
Theorem main_glides (k : nat) (stdin stack : list Z) (Hs : wf stack) :
  ∃ out, main (4 * k) stdin stack
         = Some (translate (- Z.of_nat k) 0 seed, out).
Proof.
  rewrite main_seed by exact Hs.
  destruct (auto_loop_grid (4 * k) seed (clear [] ++ frame_of glyph seed) seed_wf)
    as (out' & -> & _).
  exists out'. by rewrite seed_glides.
Qed.

Lemma main_glides_witness :
  wf (replicate CELLS 7) ∧
  ∃ out, main (4 * 3) [] (replicate CELLS 7)
         = Some (translate (- Z.of_nat 3) 0 seed, out).
Proof.
  assert (Hs : wf (replicate CELLS 7)) by (vm_compute; reflexivity).
  split; [exact Hs|]. exact (main_glides 3 [] (replicate CELLS 7) Hs).
Defined.

(** X16: the run of [main] is periodic: having gone once around the
    torus, after 280 generations the grid is again what it was. *)
Theorem main_period_280 (n : nat) (stdin stack : list Z) (Hs : wf stack) :
  fst <$> main (n + 4 * 70) stdin stack = fst <$> main n stdin stack.
Proof.
  rewrite !main_seed by exact Hs.
  destruct (auto_loop_grid (n + 4 * 70) seed
              (clear [] ++ frame_of glyph seed) seed_wf) as (out1 & -> & _).
  destruct (auto_loop_grid n seed
              (clear [] ++ frame_of glyph seed) seed_wf) as (out2 & -> & _).
  cbn [fmap option_fmap option_map fst]. apply (f_equal Some).
  rewrite (Nat.add_comm n), generations_add, seed_returns. reflexivity.
Qed.

Lemma main_period_280_witness :
  wf (replicate CELLS 7) ∧
  fst <$> main (2 + 4 * 70) [] (replicate CELLS 7)
  = fst <$> main 2 [] (replicate CELLS 7).
Proof.
  assert (Hs : wf (replicate CELLS 7)) by (vm_compute; reflexivity).
  split; [exact Hs|]. exact (main_period_280 2 [] (replicate CELLS 7) Hs).
Defined.

Lemma setup_cells_effect g :
  wf g →
  ∃ g', setup g = Some g' ∧ wf g' ∧
    ∀ x y, 0 <= x < COLS → 0 <= y < ROWS →
      spec_get g' x y
      = if bool_decide ((x, y) ∈ setup_cells) then 1 else spec_get g x y.
Proof.
  intros Hg.
  pose (I := fun (done : list (Z * Z)) (g' : list Z) =>
    wf g' ∧ ∀ x y, 0 <= x < COLS → 0 <= y < ROWS →
      spec_get g' x y
      = if bool_decide ((x, y) ∈ done) then 1 else spec_get g x y).
  destruct (for_each_inv I (fun c g => store g (cellindex c.1 c.2) 1) setup_cells)
    with (pre := @nil (Z * Z)) (s := g) as (r & Hrun & Hr);
    [|by split|by exists r].
  intros done c g' [Hwf Hg'] Hc.
  pose proof (proj1 (Forall_forall _ _) setup_cells_in_grid c Hc) as [Hcx Hcy].
  rewrite cellindex_wraps by (by apply grid_wraps).
  pose proof (spec_index_bounds c.1 c.2) as Hb. pose proof CELLS_eq as HC.
  rewrite store_insert by (rewrite Hwf; lia).
  eexists. split; [done|]. split; [unfold wf; by rewrite length_insert|].
  intros x y Hx Hy.
  destruct (decide ((x, y) = c)) as [<-|Hne].
  - rewrite bool_decide_eq_true_2 by (apply elem_of_app; right; by left).
    cbn [fst snd] in *. unfold spec_get.
    rewrite list_lookup_insert_eq by (rewrite Hwf; lia). done.
  - rewrite spec_get_insert_other.
    2: { rewrite !Z.mod_small by done. destruct c as [cx cy]. cbn [fst snd].
         destruct (decide (x = cx)) as [->|]; [right|left]; congruence. }
    rewrite Hg' by done.
    apply (f_equal (fun b : bool => if b then 1 else spec_get g x y)).
    apply bool_decide_ext. rewrite elem_of_app, list_elem_of_singleton. tauto.
Qed.

(** X17: [setup] sets the cells of its list to 1 and leaves every other
    cell of the grid as it was. *)
Theorem setup_sets_listed_cells (g : list Z) (x y : Z)
    (Hg : wf g) (Hx : 0 <= x < COLS) (Hy : 0 <= y < ROWS) :
  ∃ g', setup g = Some g' ∧ wf g' ∧
        getcell g' x y
        = if bool_decide ((x, y) ∈ setup_cells) then Some 1 else getcell g x y.
Proof.
  destruct (setup_cells_effect g Hg) as (g' & Hrun & Hwf & Hcells).
  exists g'. split; [exact Hrun|]. split; [exact Hwf|].
  rewrite !getcell_wraps by (done || by apply grid_wraps).
  rewrite Hcells by done. by destruct (bool_decide _).
Qed.

Lemma setup_sets_listed_cells_witness :
  wf (block 0 0) ∧ 0 <= 20 < COLS ∧ 0 <= 15 < ROWS ∧
  ∃ g', setup (block 0 0) = Some g' ∧ wf g' ∧
        getcell g' 20 15
        = if bool_decide ((20, 15) ∈ setup_cells) then Some 1
          else getcell (block 0 0) 20 15.
Proof.
  assert (Hg : wf (block 0 0)) by (vm_compute; reflexivity).
  assert (Hx : 0 <= 20 < COLS) by (unfold COLS; lia).
  assert (Hy : 0 <= 15 < ROWS) by (unfold ROWS; lia).
  split; [exact Hg|]. split; [exact Hx|]. split; [exact Hy|].
  exact (setup_sets_listed_cells (block 0 0) 20 15 Hg Hx Hy).
Defined.

Lemma clear_app out : clear out = out ++ clear [].
Proof. reflexivity. Qed.

Lemma auto_loop_output n g out :
  wf g →
  auto_loop n g out
  = Some (default [] (generations n g),
          out ++ mjoin ((fun i => clear [] ++ frame_of glyph
                                    (default [] (generations i g)))
                          <$> seq 1 n)).
Proof.
  revert g out. induction n as [|n IH]; intros g out Hg.
  - cbn [auto_loop seq fmap list_fmap mjoin list_join generations default].
    by rewrite app_nil_r.
  - cbn [auto_loop]. rewrite update_next, bind_Some by exact Hg.
    rewrite draw_frame, bind_Some by apply next_grid_wf.
    rewrite IH by apply next_grid_wf.
    rewrite (generations_step n g) by exact Hg.
    apply (f_equal (fun o => Some (default [] (generations n (next_grid g)), o))).
    cbn [seq fmap list_fmap mjoin list_join].
    rewrite (generations_step 0 g) by exact Hg.
    cbn [generations default]. rewrite (clear_app out), <- !app_assoc.
    do 3 apply (f_equal (app _)). apply (f_equal mjoin).
    rewrite <- (fmap_S_seq 1 n), <- list_fmap_compose.
    apply Forall_fmap_ext_1, Forall_forall. intros i _. cbn [compose].
    by rewrite (generations_step i g) by exact Hg.
Qed.

(** X18: what [main] has printed after [n] iterations is, for each
    generation from the seeded grid to the [n]-th in turn, the clear
    sequence followed by the frame of that generation. *)
Theorem main_prints_generations (n : nat) (stdin stack : list Z)
    (Hs : wf stack) :
  main n stdin stack
  = Some (default [] (generations n seed),
          mjoin ((fun i => clear [] ++ frame_of glyph
                             (default [] (generations i seed)))
                   <$> seq 0 (S n))).
Proof.
  rewrite main_seed by exact Hs.
  rewrite auto_loop_output by apply seed_wf. reflexivity.
Qed.

Lemma main_prints_generations_witness :
  wf (replicate CELLS 7) ∧
  main 2 [] (replicate CELLS 7)
  = Some (default [] (generations 2 seed),
          mjoin ((fun i => clear [] ++ frame_of glyph
                             (default [] (generations i seed)))
                   <$> seq 0 (S 2))).
Proof.
  assert (Hs : wf (replicate CELLS 7)) by (vm_compute; reflexivity).
  split; [exact Hs|]. exact (main_prints_generations 2 [] (replicate CELLS 7) Hs).
Defined.

(** The grid of [main] is the grid of [main_run]. *)
Lemma main_grid n stdin stack :
  wf stack → fst <$> main n stdin stack = main_run n stack.
Proof.
  intros Hs. rewrite main_seed by exact Hs.
  destruct (auto_loop_grid n seed (clear [] ++ frame_of glyph seed) seed_wf)
    as (out' & -> & [gn Hgn]).
  unfold main_run. rewrite init_zero, bind_Some by exact Hs.
  rewrite setup_seed, bind_Some, Hgn. reflexivity.
Qed.
